(** * eslint-plugin-sort-imports: the [sort-imports] rule

    A shallow embedding of [src/rules/sort-imports.js] and the properties
    of its specification.

    Conventions of the embedding.
    - JavaScript strings are [string]s; [<], [>] and [===] on strings are
      the code-unit comparisons [String.ltb] and [String.eqb].  The model
      covers sources whose characters are single code units below 256;
      [toLowerCase] and [trim] are written for that range.
    - AST nodes are records; positions ([range]) are pairs of naturals.
      Two distinct nodes of one list never have the same range, so the
      reference equality of [Array.prototype.indexOf] is structural
      equality of the records.
    - A [TypeError] (reading a property of [undefined]) is [None].
    - [context.report] appends to the list of reports a callback returns.
    - The closures handed to [fix] are functions of the host's fixer. *)

From Stdlib Require Import String Ascii List ZArith Bool Arith Lia.
From Stdlib Require Import Permutation Sorted OrderedTypeEx.
Import ListNotations.

Local Open Scope list_scope.
Local Open Scope string_scope.
Local Open Scope nat_scope.

(* ------------------------------------------------------------------ *)
(** ** JavaScript built-ins used by the rule *)

Module Js.

(** Values a predicate callback of this rule can return. *)
Inductive value :=
| VBool (b : bool)
| VUndefined.

Definition ToBoolean (v : value) : bool :=
  match v with
  | VBool b => b
  | VUndefined => false
  end.

(** [s.slice(b, e)] for non-negative [b] and [e]. *)
Definition slice (s : string) (b e : nat) : string := substring b (e - b) s.

(** [s.slice(b)]. *)
Definition sliceFrom (s : string) (b : nat) : string :=
  substring b (String.length s - b) s.

(** [s[0]], [None] for [undefined]. *)
Definition charAt0 (s : string) : option ascii :=
  match s with
  | EmptyString => None
  | String c _ => Some c
  end.

(** The lower case of a code unit below 256: the letters A to Z, and the
    capital letters of Latin-1 (U+00C0 to U+00DE but the sign U+00D7). *)
Definition lowerChar (c : ascii) : ascii :=
  let n := nat_of_ascii c in
  if ((65 <=? n) && (n <=? 90))
     || ((192 <=? n) && (n <=? 222) && negb (n =? 215))
  then ascii_of_nat (n + 32) else c.

Fixpoint toLowerCase (s : string) : string :=
  match s with
  | EmptyString => EmptyString
  | String c r => String (lowerChar c) (toLowerCase r)
  end.

(** White space and line terminators below 256 that [trim] removes. *)
Definition isWhiteSpace (c : ascii) : bool :=
  let n := nat_of_ascii c in
  ((9 <=? n) && (n <=? 13)) || (n =? 32) || (n =? 160).

Fixpoint trimStart (s : string) : string :=
  match s with
  | EmptyString => EmptyString
  | String c r => if isWhiteSpace c then trimStart r else s
  end.

Fixpoint trimEnd (s : string) : string :=
  match s with
  | EmptyString => EmptyString
  | String c r =>
      match trimEnd r with
      | EmptyString => if isWhiteSpace c then EmptyString else String c EmptyString
      | r' => String c r'
      end
  end.

Definition trim (s : string) : string := trimEnd (trimStart s).

(** [arr[i]] for an integer index; [None] is [undefined]. *)
Definition at_ {A} (arr : list A) (i : Z) : option A :=
  if (i <? 0)%Z then None else nth_error arr (Z.to_nat i).

(** [arr.indexOf(x)], [-1] when absent. *)
Fixpoint indexOf_from {A} (eqb : A -> A -> bool) (arr : list A) (x : A)
  (i : Z) : Z :=
  match arr with
  | [] => (-1)%Z
  | y :: r => if eqb y x then i else indexOf_from eqb r x (i + 1)%Z
  end.

Definition indexOf {A} (eqb : A -> A -> bool) (arr : list A) (x : A) : Z :=
  indexOf_from eqb arr x 0.

(** [arr.findIndex(callback)]: a callback receives the element, its
    index and the whole array. *)
Fixpoint findIndex_from {A} (callback : A -> nat -> list A -> value)
  (array rest : list A) (i : nat) : Z :=
  match rest with
  | [] => (-1)%Z
  | x :: r =>
      if ToBoolean (callback x i array) then Z.of_nat i
      else findIndex_from callback array r (S i)
  end.

Definition findIndex {A} (callback : A -> nat -> list A -> value)
  (array : list A) : Z :=
  findIndex_from callback array array 0.

(** [arr.reduce(callback, init)] for a callback that may throw. *)
Fixpoint reduce_from {A B} (callback : B -> A -> nat -> option B)
  (rest : list A) (i : nat) (acc : B) : option B :=
  match rest with
  | [] => Some acc
  | x :: r =>
      match callback acc x i with
      | None => None
      | Some acc' => reduce_from callback r (S i) acc'
      end
  end.

Definition reduce {A B} (callback : B -> A -> nat -> option B)
  (array : list A) (init : B) : option B :=
  reduce_from callback array 0 init.

(** [arr.forEach(callback)] for a callback that reports: the reports of
    all calls, in order. *)
Fixpoint forEach_from {A R} (callback : A -> nat -> list A -> list R)
  (array rest : list A) (i : nat) : list R :=
  match rest with
  | [] => []
  | x :: r => (callback x i array ++ forEach_from callback array r (S i))%list
  end.

Definition forEach {A R} (callback : A -> nat -> list A -> list R)
  (array : list A) : list R :=
  forEach_from callback array array 0.

(** [Array.prototype.sort(comparefn)].  ECMAScript leaves the algorithm to
    the engine and fixes the result only for a consistent [comparefn].
    The model is the straight insertion sort engines run on short arrays:
    each element in turn moves left past every neighbour [tmp] with
    [comparefn(tmp, element) > 0].  It is stable. *)
Fixpoint insertBack {A} (comparefn : A -> A -> Z) (element : A)
  (revPrefix : list A) : list A :=
  match revPrefix with
  | [] => [element]
  | tmp :: r =>
      if (comparefn tmp element >? 0)%Z
      then tmp :: insertBack comparefn element r
      else element :: revPrefix
  end.

Definition sortRev {A} (comparefn : A -> A -> Z) (array : list A) : list A :=
  fold_left (fun revPrefix element => insertBack comparefn element revPrefix)
            array [].

Definition sort {A} (comparefn : A -> A -> Z) (array : list A) : list A :=
  rev (sortRev comparefn array).

End Js.

(* ------------------------------------------------------------------ *)
(** ** Syntax tree and host interface *)

Definition Range := (nat * nat)%type.

Inductive SpecifierType :=
| ImportSpecifier
| ImportDefaultSpecifier
| ImportNamespaceSpecifier.

Record Identifier := { name : string }.

Record Specifier := {
  type : SpecifierType;
  local : Identifier;
  spec_range : Range
}.

Record Literal := { value : string }.

Record ImportDeclaration := {
  source : Literal;
  specifiers : list Specifier;
  decl_range : Range
}.

(** A statement of the program body: an import declaration, or a node of
    another [type]. *)
Inductive Statement :=
| Import (declaration : ImportDeclaration)
| Other (type_name : string) (r : Range).

Record ProgramNode := { body : list Statement }.

(** What the splicer needs of a node: its [range], and the identity test
    [indexOf] applies to it. *)
Class Node (A : Type) := {
  range : A -> Range;
  same : A -> A -> bool;
  same_spec : forall a b : A, reflect (a = b) (same a b)
}.

Definition Range_eq_dec (a b : Range) : {a = b} + {a <> b}.
Proof. decide equality; apply Nat.eq_dec. Defined.

Definition Specifier_eq_dec (a b : Specifier) : {a = b} + {a <> b}.
Proof.
  decide equality.
  - apply Range_eq_dec.
  - decide equality. apply string_dec.
  - decide equality.
Defined.

Definition ImportDeclaration_eq_dec (a b : ImportDeclaration) :
  {a = b} + {a <> b}.
Proof.
  decide equality.
  - apply Range_eq_dec.
  - apply (list_eq_dec Specifier_eq_dec).
  - decide equality. apply string_dec.
Defined.

Definition sumbool_reflect (P : Prop) (d : {P} + {~ P})
  : reflect P (if d then true else false) :=
  match d with
  | left yes => ReflectT P yes
  | right no => ReflectF P no
  end.

#[export] Instance Specifier_Node : Node Specifier := {
  range := spec_range;
  same a b := if Specifier_eq_dec a b then true else false;
  same_spec a b := sumbool_reflect _ (Specifier_eq_dec a b)
}.

#[export] Instance ImportDeclaration_Node : Node ImportDeclaration := {
  range := decl_range;
  same a b := if ImportDeclaration_eq_dec a b then true else false;
  same_spec a b := sumbool_reflect _ (ImportDeclaration_eq_dec a b)
}.

(** A text replacement, as the host's fixer builds it. *)
Record Fix := { fix_range : Range; fix_text : string }.

Record RuleFixer := { replaceTextRange : Range -> string -> Fix }.

Definition hostFixer : RuleFixer :=
  {| replaceTextRange r t := {| fix_range := r; fix_text := t |} |}.

(** The host applies a fix by cutting the range out of the text. *)
Definition applyFix (text : string) (f : Fix) : string :=
  Js.slice text 0 (fst (fix_range f)) ++ fix_text f
  ++ Js.sliceFrom text (snd (fix_range f)).

(** The five messages of the rule, named after the violation kinds. *)
Inductive Message :=
| UnsortedBinding
| DuplicateModule
| EmptyImportOutOfOrder
| AbsoluteImportOutOfOrder
| AlphabeticalOutOfOrder.

Definition dquote : string := String (ascii_of_nat 34) EmptyString.

Definition template (m : Message) : string :=
  match m with
  | UnsortedBinding =>
      "Expected " ++ dquote ++ "{{memberName}}" ++ dquote
      ++ " in import declaration to be sorted alphabetically."
  | DuplicateModule => "Module {{currentName}} imported twice"
  | EmptyImportOutOfOrder =>
      "Expected empty import {{currentName}} to be before import {{prevName}}"
  | AbsoluteImportOutOfOrder =>
      "Expected absolute module {{currentName}} to be before relative {{prevName}}"
  | AlphabeticalOutOfOrder =>
      "Expected module {{currentName}} to be before module {{prevName}}"
  end.

Inductive Subject :=
| OnProgram (node : ProgramNode)
| OnSpecifier (node : Specifier).

Record Report := {
  node : Subject;
  message : Message;
  data : list (string * string);
  fix_ : option (RuleFixer -> option Fix)
}.

Record Configuration := {
  cfg_sortMembers : option bool;
  cfg_caseSensitive : option bool
}.

Record Context := {
  options : list Configuration;
  getSourceCode : string
}.

(* ------------------------------------------------------------------ *)
(** ** The rule *)

Definition getModuleName (node : ImportDeclaration) : string :=
  value (source node).

Definition isAbsolute (name : string) : bool :=
  match Js.charAt0 name with
  | Some c => negb (Ascii.eqb c ".")
  | None => true
  end.

Definition isImportDeclaration (node : Statement) : bool :=
  match node with
  | Import _ => true
  | Other _ _ => false
  end.

(** [body.filter(isImportDeclaration)], as declarations. *)
Definition importDeclarations (body : list Statement) : list ImportDeclaration :=
  flat_map (fun s => match s with
                     | Import d => [d]
                     | Other _ _ => []
                     end)
           (filter isImportDeclaration body).

Definition isImportSpecifier (node : Specifier) : bool :=
  match type node with
  | ImportSpecifier => true
  | _ => false
  end.

Definition first {A} (array : list A) : option A := Js.at_ array 0.

Definition last {A} (array : list A) : option A :=
  Js.at_ array (Z.of_nat (List.length array) - 1).

Definition isLastIndex {A} (array : list A) (index : Z) : bool :=
  (index =? Z.of_nat (List.length array) - 1)%Z.

Definition isEmptyImport (node : ImportDeclaration) : bool :=
  List.length (specifiers node) =? 0.

Notation "x <- e ;; k" :=
  (match e with
   | Some x => k
   | None => None
   end) (at level 61, e at next level, right associativity, only parsing).

Section create.

Variable context : Context.

Definition configuration : Configuration :=
  match options context with
  | c :: _ => c
  | [] => {| cfg_sortMembers := None; cfg_caseSensitive := None |}
  end.

Definition sourceText : string := getSourceCode context.

Definition sortMembers : bool :=
  match cfg_sortMembers configuration with
  | Some b => b
  | None => true
  end.

Definition caseSensitive : bool :=
  match cfg_caseSensitive configuration with
  | Some b => b
  | None => false
  end.

(** [source.getText(node)]. *)
Definition getText {A} `{Node A} (node : A) : string :=
  Js.slice sourceText (fst (range node)) (snd (range node)).

Definition getCodeBetween {A} `{Node A} (nodeA nodeB : A) : string :=
  Js.slice sourceText (snd (range nodeA)) (fst (range nodeB)).

Definition getSpecifierName (specifier : Specifier) : string :=
  let name := name (local specifier) in
  if caseSensitive then name else Js.toLowerCase name.

Definition isSmallerThanPrevious (name : string) (index : nat)
  (array : list string) : Js.value :=
  if index =? 0 then Js.VBool false
  else
    match Js.at_ array (Z.of_nat index - 1) with
    | None => Js.VUndefined  (* not reached: [index - 1] is an index *)
    | Some prev =>
        let isModuleAbsolute := isAbsolute name in
        let isPrevAbsolute := isAbsolute prev in
        if isPrevAbsolute && negb isModuleAbsolute then Js.VBool false
        else if isModuleAbsolute && negb isPrevAbsolute then Js.VBool false
        else Js.VUndefined  (* the body ends here, without a [return] *)
    end.

(** One step of the [reduce] of [sortNodes]. *)
Definition sortNodes_step {A} `{Node A} (original : list A)
  (result : string) (node : A) (index : nat) : option string :=
  let oldIndex := Js.indexOf same original node in
  before <-
    (if negb (oldIndex =? 0)%Z then
       nodeA <- Js.at_ original (oldIndex - 1) ;;
       nodeB <- Js.at_ original oldIndex ;;
       Some (getCodeBetween nodeA nodeB)
     else if negb (index =? 0) then Some (String (ascii_of_nat 10) "")
     else Some "") ;;
  Some (result ++ before ++ getText node).

Definition sortNodes {A} `{Node A} (original sorted : list A) : option string :=
  Js.reduce (sortNodes_step original) sorted "".

Definition compareMembers (specifierA specifierB : Specifier) : Z :=
  let aName := getSpecifierName specifierA in
  let bName := getSpecifierName specifierB in
  if String.ltb bName aName then 1%Z else (-1)%Z.

Definition fixImportMembers (specifiers : list Specifier)
  : RuleFixer -> option Fix :=
  fun fixer =>
    let sorted := Js.sort compareMembers specifiers in
    firstNode <- first specifiers ;;
    lastNode <- last specifiers ;;
    text <- sortNodes specifiers sorted ;;
    Some (replaceTextRange fixer
            (fst (range firstNode), snd (range lastNode)) (Js.trim text)).

Definition compareDefinitions (prev current : ImportDeclaration) : Z :=
  let prevName := getModuleName prev in
  let currentName := getModuleName current in
  let isPrevEmpty := isEmptyImport prev in
  let isCurrentEmpty := isEmptyImport current in
  let isPrevAbsolute := isAbsolute prevName in
  let isCurrentAbsolute := isAbsolute currentName in
  if isPrevEmpty && negb isCurrentEmpty || isPrevAbsolute && negb isCurrentAbsolute
  then (-1)%Z
  else if negb isPrevEmpty && isCurrentEmpty
          || negb isPrevAbsolute && isCurrentAbsolute
  then 1%Z
  else if String.eqb prevName currentName then 0%Z
  else if String.ltb currentName prevName then 1%Z else (-1)%Z.

Definition fixImportDefinitions (imports : list ImportDeclaration)
  : RuleFixer -> option Fix :=
  fun fixer =>
    let sorted := Js.sort compareDefinitions imports in
    firstNode <- first imports ;;
    lastNode <- last imports ;;
    text <- sortNodes imports sorted ;;
    Some (replaceTextRange fixer
            (fst (range firstNode), snd (range lastNode)) (Js.trim text)).

(** The callback of the first [forEach]: the binding order of one
    declaration. *)
Definition checkMembers (declaration : ImportDeclaration) : list Report :=
  let specifiers := filter isImportSpecifier (specifiers declaration) in
  let unsortedMemberIndex :=
    Js.findIndex isSmallerThanPrevious (map getSpecifierName specifiers) in
  if negb (unsortedMemberIndex =? -1)%Z then
    match Js.at_ specifiers unsortedMemberIndex with
    | Some unsorted =>
        [ {| node := OnSpecifier unsorted;
             message := UnsortedBinding;
             data := [("memberName", name (local unsorted))];
             fix_ := Some (fixImportMembers specifiers) |} ]
    | None => []  (* not reached: the index is one of the array *)
    end
  else [].

(** The callback of the second [forEach]: one declaration against the
    one before it. *)
Definition checkDeclaration (node : ProgramNode)
  (imports : list ImportDeclaration)
  (current : ImportDeclaration) (index : nat)
  (array : list ImportDeclaration) : list Report :=
  if index =? 0 then []
  else
    match Js.at_ array (Z.of_nat index - 1) with
    | None => []  (* not reached: [index - 1] is an index of the array *)
    | Some prev =>
        let prevName := getModuleName prev in
        let currentName := getModuleName current in
        if String.eqb prevName currentName then
          [ {| node := OnProgram node;
               message := DuplicateModule;
               data := [("currentName", currentName)];
               fix_ := None |} ]
        else
          let isPrevEmpty := isEmptyImport prev in
          let isCurrentEmpty := isEmptyImport current in
          let isPrevAbsolute := isAbsolute prevName in
          let isCurrentAbsolute := isAbsolute currentName in
          if isPrevEmpty && negb isCurrentEmpty
             || isPrevAbsolute && negb isCurrentAbsolute
          then []
          else if negb isPrevEmpty && isCurrentEmpty then
            [ {| node := OnProgram node;
                 message := EmptyImportOutOfOrder;
                 data := [("currentName", currentName); ("prevName", prevName)];
                 fix_ := Some (fixImportDefinitions imports) |} ]
          else if negb isPrevAbsolute && isCurrentAbsolute then
            [ {| node := OnProgram node;
                 message := AbsoluteImportOutOfOrder;
                 data := [("currentName", currentName); ("prevName", prevName)];
                 fix_ := Some (fixImportDefinitions imports) |} ]
          else if String.ltb currentName prevName then
            [ {| node := OnProgram node;
                 message := AlphabeticalOutOfOrder;
                 data := [("currentName", currentName); ("prevName", prevName)];
                 fix_ := Some (fixImportDefinitions imports) |} ]
          else []
    end.

(** The [Program] handler: all reports of one pass, in order.  (The test
    [!imports] of the source never holds: an array is truthy.) *)
Definition Program (node : ProgramNode) : list Report :=
  let imports := importDeclarations (body node) in
  ((if sortMembers
    then Js.forEach (fun declaration _ _ => checkMembers declaration) imports
    else [])
   ++ Js.forEach (checkDeclaration node imports) imports)%list.

End create.

(* ------------------------------------------------------------------ *)
(** ** Sample modules *)

Module Samples.

Definition specifier (n : string) (b e : nat) : Specifier :=
  {| type := ImportSpecifier; local := {| name := n |}; spec_range := (b, e) |}.

Definition defaultSpecifier (n : string) (b e : nat) : Specifier :=
  {| type := ImportDefaultSpecifier; local := {| name := n |};
     spec_range := (b, e) |}.

Definition declaration (module : string) (specs : list Specifier)
  (b e : nat) : ImportDeclaration :=
  {| source := {| value := module |}; specifiers := specs;
     decl_range := (b, e) |}.

Definition contextOf (opts : list Configuration) (text : string) : Context :=
  {| options := opts; getSourceCode := text |}.

Definition programOf (imports : list ImportDeclaration) : ProgramNode :=
  {| body := map Import imports |}.

Definition sortMembersOn : Configuration :=
  {| cfg_sortMembers := Some true; cfg_caseSensitive := None |}.

(** [import { b, a } from './x';] *)
Definition unsortedText : string := "import { b, a } from './x';".
Definition unsortedContext : Context := contextOf [sortMembersOn] unsortedText.
Definition unsortedDeclaration : ImportDeclaration :=
  declaration "./x" [specifier "b" 9 10; specifier "a" 12 13] 0 27.

(** [import 'a'; import 'b'; import x from 'a';] *)
Definition twiceText : string := "import 'a'; import 'b'; import x from 'a';".
Definition twiceContext : Context := contextOf [] twiceText.
Definition twiceImports : list ImportDeclaration :=
  [ declaration "a" [] 0 11;
    declaration "b" [] 12 23;
    declaration "a" [defaultSpecifier "x" 31 32] 24 42 ].

(** [import './b'; import './a';] *)
Definition swappedText : string := "import './b'; import './a';".
Definition swappedContext : Context := contextOf [] swappedText.
Definition swappedImports : list ImportDeclaration :=
  [ declaration "./b" [] 0 13; declaration "./a" [] 14 27 ].

(** [import a from 'a'; import './x'; import b from 'b';] *)
Definition tripleText : string :=
  "import a from 'a'; import './x'; import b from 'b';".
Definition tripleContext : Context := contextOf [] tripleText.
Definition tripleImports : list ImportDeclaration :=
  [ declaration "a" [defaultSpecifier "a" 7 8] 0 18;
    declaration "./x" [] 19 32;
    declaration "b" [defaultSpecifier "b" 40 41] 33 51 ].

Definition swappedReport : Report :=
  {| node := OnProgram (programOf swappedImports);
     message := AlphabeticalOutOfOrder;
     data := [("currentName", "./a"); ("prevName", "./b")];
     fix_ := Some (fixImportDefinitions swappedContext swappedImports) |}.

(** [import './b'; /* b */ import './a';] *)
Definition commentedText : string := "import './b'; /* b */ import './a';".
Definition commentedContext : Context := contextOf [] commentedText.
Definition commentedImports : list ImportDeclaration :=
  [ declaration "./b" [] 0 13; declaration "./a" [] 22 35 ].

Definition commentedEdit : Fix :=
  {| fix_range := (0, 35);
     fix_text := "/* b */ import './a';" ++ String (ascii_of_nat 10) ""
                 ++ "import './b';" |}.

(** [import './a'; import './a';] *)
Definition repeatedText : string := "import './a'; import './a';".
Definition repeatedContext : Context := contextOf [] repeatedText.
Definition repeatedImports : list ImportDeclaration :=
  [ declaration "./a" [] 0 13; declaration "./a" [] 14 27 ].

(** [import './x'; import 'pkg';] *)
Definition relativeFirstText : string := "import './x'; import 'pkg';".
Definition relativeFirstContext : Context := contextOf [] relativeFirstText.
Definition relativeFirstImports : list ImportDeclaration :=
  [ declaration "./x" [] 0 13; declaration "pkg" [] 14 27 ].

(** [import x from 'pkg'; import './a';] and the same two statements the
    other way round. *)
Definition mixedText : string := "import x from 'pkg'; import './a';".
Definition mixedContext : Context := contextOf [] mixedText.
Definition mixedImports : list ImportDeclaration :=
  [ declaration "pkg" [defaultSpecifier "x" 7 8] 0 20;
    declaration "./a" [] 21 34 ].

Definition mixedText' : string := "import './a'; import x from 'pkg';".
Definition mixedContext' : Context := contextOf [] mixedText'.
Definition mixedImports' : list ImportDeclaration :=
  [ declaration "./a" [] 0 13;
    declaration "pkg" [defaultSpecifier "x" 21 22] 14 34 ].

(** [import d, { b, a } from './x';] *)
Definition leadingDefaultText : string := "import d, { b, a } from './x';".
Definition leadingDefaultContext : Context :=
  contextOf [sortMembersOn] leadingDefaultText.
Definition leadingDefaultDeclaration : ImportDeclaration :=
  declaration "./x"
    [defaultSpecifier "d" 7 8; specifier "b" 12 13; specifier "a" 15 16] 0 30.

Definition leadingDefaultEdit : Fix :=
  {| fix_range := (12, 16);
     fix_text := ", a" ++ String (ascii_of_nat 10) "b" |}.




(** [import './b'; import './a';] after its rewrite, and its parse. *)
Definition swappedRewritten : string :=
  "import './a';" ++ String (ascii_of_nat 10) "import './b';".
Definition swappedRewrittenContext : Context := contextOf [] swappedRewritten.
Definition swappedRewrittenImports : list ImportDeclaration :=
  [ declaration "./a" [] 0 13; declaration "./b" [] 14 27 ].

End Samples.

(* ------------------------------------------------------------------ *)
(** ** The specification's vocabulary *)

(** The statement classifier of the specification. *)
Definition moduleIdentifier (s : ImportDeclaration) : string := getModuleName s.
Definition isEmpty (s : ImportDeclaration) : bool := isEmptyImport s.
Definition isAbsoluteImport (s : ImportDeclaration) : bool :=
  isAbsolute (getModuleName s).

(** The decision sequence of the declaration order checker, one rule per
    step; every rule carries the failure of the steps before it. *)
Inductive Decision (prev current : ImportDeclaration)
  : option Message -> Prop :=
| decide_duplicate :
    moduleIdentifier prev = moduleIdentifier current ->
    Decision prev current (Some DuplicateModule)
| decide_in_order :
    moduleIdentifier prev <> moduleIdentifier current ->
    (isEmpty prev = true /\ isEmpty current = false)
    \/ (isAbsoluteImport prev = true /\ isAbsoluteImport current = false) ->
    Decision prev current None
| decide_empty :
    moduleIdentifier prev <> moduleIdentifier current ->
    ~ (isEmpty prev = true /\ isEmpty current = false) ->
    ~ (isAbsoluteImport prev = true /\ isAbsoluteImport current = false) ->
    isEmpty prev = false -> isEmpty current = true ->
    Decision prev current (Some EmptyImportOutOfOrder)
| decide_absolute :
    moduleIdentifier prev <> moduleIdentifier current ->
    ~ (isEmpty prev = true /\ isEmpty current = false) ->
    ~ (isAbsoluteImport prev = true /\ isAbsoluteImport current = false) ->
    ~ (isEmpty prev = false /\ isEmpty current = true) ->
    isAbsoluteImport prev = false -> isAbsoluteImport current = true ->
    Decision prev current (Some AbsoluteImportOutOfOrder)
| decide_alphabetical :
    moduleIdentifier prev <> moduleIdentifier current ->
    ~ (isEmpty prev = true /\ isEmpty current = false) ->
    ~ (isAbsoluteImport prev = true /\ isAbsoluteImport current = false) ->
    ~ (isEmpty prev = false /\ isEmpty current = true) ->
    ~ (isAbsoluteImport prev = false /\ isAbsoluteImport current = true) ->
    String.ltb (moduleIdentifier current) (moduleIdentifier prev) = true ->
    Decision prev current (Some AlphabeticalOutOfOrder)
| decide_accept :
    moduleIdentifier prev <> moduleIdentifier current ->
    ~ (isEmpty prev = true /\ isEmpty current = false) ->
    ~ (isAbsoluteImport prev = true /\ isAbsoluteImport current = false) ->
    ~ (isEmpty prev = false /\ isEmpty current = true) ->
    ~ (isAbsoluteImport prev = false /\ isAbsoluteImport current = true) ->
    String.ltb (moduleIdentifier current) (moduleIdentifier prev) = false ->
    Decision prev current None.

Definition verdictMessages (verdict : option Message) : list Message :=
  match verdict with
  | Some m => [m]
  | None => []
  end.

(** The index the binding sorter is specified to return: the first
    position whose key is smaller than the key before it. *)
Fixpoint firstDescent_from (prev : string) (rest : list string) (i : nat)
  : option nat :=
  match rest with
  | [] => None
  | k :: r =>
      if String.ltb k prev then Some i else firstDescent_from k r (S i)
  end.

Definition firstDescent (keys : list string) : option nat :=
  match keys with
  | [] => None
  | k :: r => firstDescent_from k r 1
  end.

Fixpoint adjacentPairs {A} (l : list A) : list (A * A) :=
  match l with
  | [] => []
  | a :: r =>
      match r with
      | [] => []
      | b :: _ => (a, b) :: adjacentPairs r
      end
  end.

(** The reports on one adjacent pair: the callback at the second element
    of the two-element array. *)
Definition pairReports (context : Context) (node : ProgramNode)
  (imports : list ImportDeclaration) (prev current : ImportDeclaration)
  : list Report :=
  checkDeclaration context node imports current 1 [prev; current].

(** *** Vocabulary of the splicer *)

Section SplicerVocabulary.

Variable context : Context.
Context {A : Type} `{Node A}.

Definition lineBreak : string := String (ascii_of_nat 10) "".

(** The text between [node] and the node before it in the sequence
    [prev :: rest]. *)
Fixpoint gapOf (prev : A) (rest : list A) (node : A) : string :=
  match rest with
  | [] => ""
  | x :: r =>
      if same x node then getCodeBetween context prev x else gapOf x r node
  end.

(** What the splicer puts before [node] when it lands at [index]: its
    original gap, or for the originally first node a line break unless it
    stays first. *)
Definition gapBefore (original : list A) (node : A) (index : nat) : string :=
  match original with
  | [] => ""
  | o :: rest =>
      if same o node then (if index =? 0 then "" else lineBreak)
      else gapOf o rest node
  end.

(** The output cut into one segment per node: the gap and the raw text. *)
Fixpoint segments (original sorted : list A) (index : nat)
  : list (string * string) :=
  match sorted with
  | [] => []
  | n :: r =>
      (gapBefore original n index, getText context n)
      :: segments original r (S index)
  end.

Definition joinSegments (l : list (string * string)) : string :=
  fold_right (fun segment acc => fst segment ++ snd segment ++ acc) "" l.

(** The gaps of a sequence, one per node that is not first. *)
Fixpoint originalGaps (l : list A) : list string :=
  match l with
  | [] => []
  | a :: r =>
      match r with
      | [] => []
      | b :: _ => getCodeBetween context a b :: originalGaps r
      end
  end.

Definition totalLength (l : list string) : nat :=
  list_sum (map String.length l).

(** 1 when the originally first node is not first in the target. *)
Definition movedFirst (original sorted : list A) : nat :=
  match original, sorted with
  | o :: _, t :: _ => if same o t then 0 else 1
  | _, _ => 0
  end.

(** The length of the gap a node brings along from its original place. *)
Definition ownGap (original : list A) (n : A) : nat :=
  match original with
  | [] => 0
  | o :: rest =>
      if same o n then 0 else String.length (gapOf o rest n)
  end.

Definition isFirstOf (original : list A) (n : A) : bool :=
  match original with
  | [] => false
  | o :: _ => same o n
  end.

(** Nodes as a parser lays them out: each node is not empty and starts
    no earlier than the one before it ends. *)
Fixpoint laidOut (pos : nat) (l : list A) : Prop :=
  match l with
  | [] => True
  | n :: r =>
      pos <= fst (range n) /\ fst (range n) < snd (range n)
      /\ laidOut (snd (range n)) r
  end.

(** The nodes of [rest] with their gaps, after [prev]. *)
Fixpoint joined (prev : A) (rest : list A) : string :=
  match rest with
  | [] => ""
  | x :: r => getCodeBetween context prev x ++ getText context x ++ joined x r
  end.

End SplicerVocabulary.

(** The rule on rewrites: none for a module imported twice; for any
    other report a closure that returns a text replacement when the host
    calls it. *)
Definition rewriteRule (r : Report) : Prop :=
  (message r = DuplicateModule -> fix_ r = None)
  /\ (message r <> DuplicateModule ->
      exists closure edit, fix_ r = Some closure /\ closure hostFixer = Some edit).


(** *** The target order of the specification *)

(** A stable sort by a key, written the textbook way: the elements are
    taken from the last to the first, and each is put in front of the
    first element whose key is not smaller than its own. *)
Section StableSortByKey.

Context {A K : Type}.
Variable key : A -> K.
Variable leb : K -> K -> bool.

Fixpoint insertByKey (x : A) (sorted : list A) : list A :=
  match sorted with
  | [] => [x]
  | y :: r =>
      if leb (key x) (key y) then x :: sorted else y :: insertByKey x r
  end.

Definition stableSortByKey (l : list A) : list A :=
  fold_right insertByKey [] l.

Definition keyLe (a b : A) : Prop := leb (key a) (key b) = true.

Definition keyGe (a b : A) : Prop := keyLe b a.

Variable K_eq_dec : forall k1 k2 : K, {k1 = k2} + {k1 <> k2}.

(** The elements of a given key. *)
Definition keyIs (k : K) (a : A) : bool :=
  if K_eq_dec (key a) k then true else false.

End StableSortByKey.

(** The composite key [(not isEmpty, not isAbsolute, moduleIdentifier)]
    and its lexicographic order, [false] before [true]. *)
Definition CompositeKey := (bool * bool * string)%type.

Definition compositeKey (s : ImportDeclaration) : CompositeKey :=
  (negb (isEmpty s), negb (isAbsoluteImport s), moduleIdentifier s).

Definition compositeLeb (k1 k2 : CompositeKey) : bool :=
  match k1, k2 with
  | (e1, r1, m1), (e2, r2, m2) =>
      if Bool.eqb e1 e2 then
        if Bool.eqb r1 r2 then String.leb m1 m2 else implb r1 r2
      else implb e1 e2
  end.

Definition CompositeKey_eq_dec (k1 k2 : CompositeKey) : {k1 = k2} + {k1 <> k2}.
Proof. repeat decide equality. Defined.

Definition hasKey (k : CompositeKey) (s : ImportDeclaration) : bool :=
  keyIs compositeKey CompositeKey_eq_dec k s.

Definition targetOrder (imports : list ImportDeclaration)
  : list ImportDeclaration :=
  Js.sort compareDefinitions imports.

(** A list mixes the two classes the comparator cannot tell apart when it
    holds an empty relative import and a non-empty absolute one. *)
Definition emptyRelative (s : ImportDeclaration) : bool :=
  isEmpty s && negb (isAbsoluteImport s).

Definition nonEmptyAbsolute (s : ImportDeclaration) : bool :=
  negb (isEmpty s) && isAbsoluteImport s.

Definition mixesClasses (imports : list ImportDeclaration) : bool :=
  existsb emptyRelative imports && existsb nonEmptyAbsolute imports.

(** Every empty import comes before every non-empty one. *)
Fixpoint emptiesFirst (l : list ImportDeclaration) : bool :=
  match l with
  | [] => true
  | s :: r =>
      (isEmpty s || forallb (fun t => negb (isEmpty t)) r) && emptiesFirst r
  end.

(** A sort engine seen from outside: from the outcomes of the comparator
    on the positions of the array (all it can observe) it returns the
    positions in their new order. *)
Definition Engine := (nat -> nat -> option Z) -> nat -> list nat.

Definition outcomes {A} (comparefn : A -> A -> Z) (array : list A)
  (i j : nat) : option Z :=
  match nth_error array i, nth_error array j with
  | Some a, Some b => Some (comparefn a b)
  | _, _ => None
  end.

Definition arrange {A} (engine : Engine) (comparefn : A -> A -> Z)
  (array : list A) : list A :=
  flat_map (fun i => match nth_error array i with
                     | Some a => [a]
                     | None => []
                     end)
           (engine (outcomes comparefn array) (List.length array)).

(** *** Re-running the pass after a rewrite *)

(** Two parses of one statement: the same module and the same bindings,
    whatever their positions in the text. *)
Definition sameSpecifier (a b : Specifier) : Prop :=
  type a = type b /\ local a = local b.

Definition sameStatement (a b : ImportDeclaration) : Prop :=
  source a = source b /\ Forall2 sameSpecifier (specifiers a) (specifiers b).

(** A pair a comparator leaves as it is, and the same read from the
    right. *)
Definition keptBy {A} (comparefn : A -> A -> Z) (prev current : A) : Prop :=
  (comparefn prev current >? 0)%Z = false.


Definition keptInOrder : ImportDeclaration -> ImportDeclaration -> Prop :=
  keptBy compareDefinitions.

(** *** The text after a rewrite *)

(** A text with a first and a last character, neither of them white
    space; the raw text of a statement is one. *)
Definition isSolid (s : string) : bool :=
  negb (String.eqb s "")
  && String.eqb (Js.trimStart s) s
  && String.eqb (Js.trimEnd s) s.

(** Trimming touches the leading gap only. *)
Definition trimmedSegments (segs : list (string * string))
  : list (string * string) :=
  match segs with
  | [] => []
  | (gap, text) :: r => (Js.trimStart gap, text) :: r
  end.

(** Where the texts of the segments lie when the segments are written
    from position [pos] on. *)
Fixpoint layout (pos : nat) (segs : list (string * string)) : list Range :=
  match segs with
  | [] => []
  | (gap, text) :: r =>
      let start := pos + String.length gap in
      let stop := start + String.length text in
      (start, stop) :: layout stop r
  end.

(** Ranges that follow one another from [pos] on, none of them empty. *)
Fixpoint inSequence (pos : nat) (ranges : list Range) : Prop :=
  match ranges with
  | [] => True
  | (start, stop) :: r => pos <= start /\ start < stop /\ inSequence stop r
  end.

(** *** Vocabulary of the further properties *)

(** What a report shows to the user: where, which message, with which
    names. *)
Definition diagnostic (r : Report) : Subject * Message * list (string * string) :=
  (node r, message r, data r).

Definition carriesFix (r : Report) : bool :=
  match fix_ r with
  | Some _ => true
  | None => false
  end.

(** The two statements of a pair are of the two classes the comparator
    cannot tell apart, one of each. *)
Definition mixedPair (a b : ImportDeclaration) : bool :=
  emptyRelative a && nonEmptyAbsolute b
  || emptyRelative b && nonEmptyAbsolute a.

(** One of two given nodes. *)
Definition oneOf {A} `{Node A} (a b d : A) : bool := same a d || same b d.

(** *** The end of a statement *)




(* ------------------------------------------------------------------ *)
(** ** Binding order *)

Section BindingOrder.

Variable context : Context.

Lemma isSmallerThanPrevious_falsy name index array :
  Js.ToBoolean (isSmallerThanPrevious name index array) = false.
Proof.
  unfold isSmallerThanPrevious.
  destruct (index =? 0); [reflexivity|].
  destruct (Js.at_ array (Z.of_nat index - 1)) as [prev|]; [|reflexivity].
  destruct (isAbsolute prev), (isAbsolute name); reflexivity.
Qed.

Lemma findIndex_from_falsy {A} (callback : A -> nat -> list A -> Js.value)
  array rest i :
  (forall x j, Js.ToBoolean (callback x j array) = false) ->
  Js.findIndex_from callback array rest i = (-1)%Z.
Proof.
  intros Hfalsy. revert i.
  induction rest as [|x rest IH]; intros i; simpl.
  - reflexivity.
  - rewrite Hfalsy. apply IH.
Qed.

Lemma findIndex_isSmallerThanPrevious names :
  Js.findIndex isSmallerThanPrevious names = (-1)%Z.
Proof.
  apply findIndex_from_falsy. intros. apply isSmallerThanPrevious_falsy.
Qed.

Lemma checkMembers_silent declaration :
  checkMembers context declaration = [].
Proof.
  unfold checkMembers. rewrite findIndex_isSmallerThanPrevious. reflexivity.
Qed.

End BindingOrder.

(** C1 (the code departs from the claim).  The claim has the binding
    sorter return the index of the first binding whose key is smaller than
    the key before it.  [isSmallerThanPrevious] never answers [true]: for
    every list of names the search returns [-1], also for the names
    [b, a], whose first descent is at index 1. *)
Theorem C1_binding_index_never_found :
  (forall names, Js.findIndex isSmallerThanPrevious names = (-1)%Z)
  /\ (forall context declaration, checkMembers context declaration = [])
  /\ firstDescent
       (map (getSpecifierName Samples.unsortedContext)
          (filter isImportSpecifier (specifiers Samples.unsortedDeclaration)))
     = Some 1.
Proof.
  split; [|split].
  - apply findIndex_isSmallerThanPrevious.
  - apply checkMembers_silent.
  - reflexivity.
Qed.

(** C7 (the code departs from the claim).  On the module
    [import { b, a } from './x';] with [sortMembers] on, the pass reports
    nothing, where the claim expects one report on [a]; and the rewrite
    the report would carry turns the module into
    [import { , a
b } from './x';]. *)
Theorem C7_unsorted_members_not_reported :
  Program Samples.unsortedContext
    (Samples.programOf [Samples.unsortedDeclaration]) = []
  /\ sortMembers Samples.unsortedContext = true
  /\ option_map (applyFix Samples.unsortedText)
       (fixImportMembers Samples.unsortedContext
          (filter isImportSpecifier (specifiers Samples.unsortedDeclaration))
          hostFixer)
     = Some ("import { , a" ++ String (ascii_of_nat 10) "b } from './x';").
Proof. repeat split; reflexivity. Qed.

(* ------------------------------------------------------------------ *)
(** ** Declaration order, pair by pair *)

Section DeclarationOrder.

Variable context : Context.
Variable node : ProgramNode.
Variable imports : list ImportDeclaration.

Lemma at_of_nat {A} (l : list A) (i : nat) :
  Js.at_ l (Z.of_nat i) = nth_error l i.
Proof.
  unfold Js.at_.
  destruct (Z.ltb_spec (Z.of_nat i) 0) as [Hneg|_]; [lia|].
  now rewrite Nat2Z.id.
Qed.

Lemma at_pred {A} (l : list A) (i : nat) :
  i <> 0 -> Js.at_ l (Z.of_nat i - 1) = nth_error l (i - 1).
Proof.
  intros Hi. replace (Z.of_nat i - 1)%Z with (Z.of_nat (i - 1)) by lia.
  apply at_of_nat.
Qed.

Lemma checkDeclaration_pair current index array prev :
  index <> 0 ->
  nth_error array (index - 1) = Some prev ->
  checkDeclaration context node imports current index array
  = pairReports context node imports prev current.
Proof.
  intros Hi Hprev. unfold pairReports, checkDeclaration.
  rewrite at_pred, Hprev by assumption.
  destruct index as [|index]; [contradiction|]. reflexivity.
Qed.

Lemma forEach_from_checkDeclaration pre prev rest :
  Js.forEach_from (checkDeclaration context node imports)
    (pre ++ prev :: rest) rest (S (List.length pre))
  = flat_map (fun pc => pairReports context node imports (fst pc) (snd pc))
      (adjacentPairs (prev :: rest)).
Proof.
  revert pre prev.
  induction rest as [|current rest IH]; intros pre prev.
  - reflexivity.
  - cbn [Js.forEach_from adjacentPairs flat_map fst snd]. f_equal.
    + apply checkDeclaration_pair; [lia|].
      cbn [Nat.sub]. rewrite Nat.sub_0_r.
      rewrite nth_error_app2 by lia. now rewrite Nat.sub_diag.
    + specialize (IH (pre ++ [prev])%list current).
      rewrite <- app_assoc in IH. cbn [app] in IH.
      rewrite length_app in IH. cbn [List.length] in IH.
      replace (List.length pre + 1) with (S (List.length pre)) in IH by lia.
      exact IH.
Qed.

Lemma forEach_checkDeclaration l :
  Js.forEach (checkDeclaration context node imports) l
  = flat_map (fun pc => pairReports context node imports (fst pc) (snd pc))
      (adjacentPairs l).
Proof.
  destruct l as [|first rest]; [reflexivity|].
  unfold Js.forEach. cbn [Js.forEach_from].
  change (checkDeclaration context node imports first 0 (first :: rest))
    with (@nil Report).
  cbn [app]. apply (forEach_from_checkDeclaration [] first rest).
Qed.

Lemma pairReports_decision prev current :
  exists verdict,
    Decision prev current verdict
    /\ map message (pairReports context node imports prev current)
       = verdictMessages verdict.
Proof.
  unfold pairReports, checkDeclaration.
  cbn [Nat.eqb Z.of_nat]. cbn [Js.at_ Z.ltb Z.compare Z.sub Z.add Z.opp
    Z.pos_sub Pos.of_succ_nat Z.to_nat nth_error].
  destruct (String.eqb_spec (getModuleName prev) (getModuleName current))
    as [Heq|Hne].
  { exists (Some DuplicateModule). split; [now constructor|reflexivity]. }
  destruct (isEmptyImport prev) eqn:Ep, (isEmptyImport current) eqn:Ec,
    (isAbsolute (getModuleName prev)) eqn:Ap,
    (isAbsolute (getModuleName current)) eqn:Ac; cbn [andb orb negb];
    try (exists None; split; [|reflexivity];
         apply decide_in_order; [exact Hne|];
         unfold isEmpty, isAbsoluteImport; rewrite ?Ep, ?Ec, ?Ap, ?Ac;
         solve [left; split; reflexivity | right; split; reflexivity]);
    try (exists (Some EmptyImportOutOfOrder); split; [|reflexivity];
         apply decide_empty; unfold isEmpty, isAbsoluteImport;
         rewrite ?Ep, ?Ec, ?Ap, ?Ac; solve [assumption | reflexivity |
           intros [? ?]; discriminate]);
    try (exists (Some AbsoluteImportOutOfOrder); split; [|reflexivity];
         apply decide_absolute; unfold isEmpty, isAbsoluteImport;
         rewrite ?Ep, ?Ec, ?Ap, ?Ac; solve [assumption | reflexivity |
           intros [? ?]; discriminate]);
    (destruct (String.ltb (getModuleName current) (getModuleName prev)) eqn:Hlt;
     [ exists (Some AlphabeticalOutOfOrder); split; [|reflexivity];
       apply decide_alphabetical
     | exists None; split; [|reflexivity]; apply decide_accept ];
     unfold isEmpty, isAbsoluteImport, moduleIdentifier;
     rewrite ?Ep, ?Ec, ?Ap, ?Ac;
     solve [assumption | reflexivity | intros [? ?]; discriminate]).
Qed.

End DeclarationOrder.

Lemma Decision_functional prev current v1 v2 :
  Decision prev current v1 -> Decision prev current v2 -> v1 = v2.
Proof.
  intros H1 H2.
  destruct H1; destruct H2; try reflexivity;
    repeat match goal with
           | H : _ \/ _ |- _ => destruct H
           | H : _ /\ _ |- _ => destruct H
           end;
    try congruence;
    try solve [exfalso; auto].
Qed.

Lemma pairReports_length context node imports prev current :
  List.length (pairReports context node imports prev current) <= 1.
Proof.
  destruct (pairReports_decision context node imports prev current)
    as [verdict [_ Hmsg]].
  rewrite <- (length_map message), Hmsg.
  destruct verdict; simpl; lia.
Qed.

(** C4.  For an adjacent pair [(prev, current)] the callback of the
    declaration pass reports what the decision sequence decides and
    nothing else: the verdict of the sequence is unique, the messages
    reported are exactly that verdict, so at most one report is made. *)
Theorem C4_pair_decision context node imports current index array prev :
  index <> 0 ->
  nth_error array (index - 1) = Some prev ->
  exists verdict,
    Decision prev current verdict
    /\ (forall verdict', Decision prev current verdict' -> verdict' = verdict)
    /\ map message (checkDeclaration context node imports current index array)
       = verdictMessages verdict
    /\ List.length (checkDeclaration context node imports current index array)
       <= 1.
Proof.
  intros Hindex Hprev.
  rewrite (checkDeclaration_pair context node imports current index array prev)
    by assumption.
  destruct (pairReports_decision context node imports prev current)
    as [verdict [Hdecision Hmsg]].
  exists verdict. repeat split.
  - exact Hdecision.
  - intros verdict' Hdecision'.
    exact (Decision_functional prev current _ _ Hdecision' Hdecision).
  - exact Hmsg.
  - apply pairReports_length.
Qed.

Lemma C4_pair_decision_witness :
  exists verdict,
    Decision (Samples.declaration "./b" [] 0 13)
             (Samples.declaration "./a" [] 14 27) verdict
    /\ (forall verdict',
           Decision (Samples.declaration "./b" [] 0 13)
                    (Samples.declaration "./a" [] 14 27) verdict'
           -> verdict' = verdict)
    /\ map message
         (checkDeclaration Samples.swappedContext
            (Samples.programOf Samples.swappedImports) Samples.swappedImports
            (Samples.declaration "./a" [] 14 27) 1 Samples.swappedImports)
       = verdictMessages verdict
    /\ List.length
         (checkDeclaration Samples.swappedContext
            (Samples.programOf Samples.swappedImports) Samples.swappedImports
            (Samples.declaration "./a" [] 14 27) 1 Samples.swappedImports)
       <= 1.
Proof.
  apply (C4_pair_decision Samples.swappedContext
           (Samples.programOf Samples.swappedImports) Samples.swappedImports
           (Samples.declaration "./a" [] 14 27) 1 Samples.swappedImports
           (Samples.declaration "./b" [] 0 13)).
  - discriminate.
  - reflexivity.
Defined.

(* ------------------------------------------------------------------ *)
(** ** Accepted lists *)

Lemma flat_map_nil_inv {A B} (f : A -> list B) (l : list A) :
  flat_map f l = [] -> forall x, In x l -> f x = [].
Proof.
  induction l as [|a l IH]; intros Hnil x Hin; [contradiction|].
  cbn in Hnil. apply app_eq_nil in Hnil. destruct Hnil as [Ha Hl].
  destruct Hin as [<-|Hin]; [exact Ha|now apply IH].
Qed.

Lemma Program_accepts_pairs context node prev current :
  Program context node = [] ->
  In (prev, current) (adjacentPairs (importDeclarations (body node))) ->
  pairReports context node (importDeclarations (body node)) prev current = [].
Proof.
  unfold Program. intros Hnil Hin.
  apply app_eq_nil in Hnil. destruct Hnil as [_ Hnil].
  rewrite forEach_checkDeclaration in Hnil.
  exact (flat_map_nil_inv _ _ Hnil (prev, current) Hin).
Qed.

(** C3 (as amended).  On a list the pass accepts, no two adjacent
    statements have the same module identifier. *)
Theorem C3_accepted_adjacent_distinct context node prev current :
  Program context node = [] ->
  In (prev, current) (adjacentPairs (importDeclarations (body node))) ->
  moduleIdentifier prev <> moduleIdentifier current.
Proof.
  intros Hnil Hin Heq.
  pose proof (Program_accepts_pairs context node prev current Hnil Hin) as Hp.
  unfold pairReports, checkDeclaration in Hp. cbn in Hp.
  unfold moduleIdentifier in Heq.
  apply String.eqb_eq in Heq. rewrite Heq in Hp. discriminate.
Qed.

Lemma C3_accepted_adjacent_distinct_witness :
  moduleIdentifier (Samples.declaration "a" [] 0 11)
  <> moduleIdentifier (Samples.declaration "b" [] 12 23).
Proof.
  apply (C3_accepted_adjacent_distinct Samples.twiceContext
           (Samples.programOf Samples.twiceImports)).
  - reflexivity.
  - simpl. left. reflexivity.
Defined.

(** C3 (the claim as stated fails).  The pass accepts
    [import 'a'; import 'b'; import x from 'a';], in which the first and
    the third statement import the same module. *)
Lemma C3_counterexample :
  Program Samples.twiceContext (Samples.programOf Samples.twiceImports) = []
  /\ ~ NoDup (map moduleIdentifier
                (importDeclarations
                   (body (Samples.programOf Samples.twiceImports)))).
Proof.
  split; [reflexivity|].
  intros Hnodup. cbn in Hnodup.
  inversion Hnodup as [|x l Hnotin _]; subst.
  apply Hnotin. right. left. reflexivity.
Qed.

(* ------------------------------------------------------------------ *)
(** ** Facts about the built-ins *)

Module JsFacts.

Lemma insertBack_perm {A} (comparefn : A -> A -> Z) element revPrefix :
  Permutation (Js.insertBack comparefn element revPrefix)
              (element :: revPrefix).
Proof.
  induction revPrefix as [|tmp r IH]; cbn.
  - apply Permutation_refl.
  - destruct (comparefn tmp element >? 0)%Z.
    + rewrite IH. apply perm_swap.
    + apply Permutation_refl.
Qed.

Lemma fold_insertBack_perm {A} (comparefn : A -> A -> Z) array revPrefix :
  Permutation
    (fold_left (fun acc element => Js.insertBack comparefn element acc)
               array revPrefix)
    (array ++ revPrefix)%list.
Proof.
  revert revPrefix.
  induction array as [|x array IH]; intros revPrefix; cbn.
  - apply Permutation_refl.
  - rewrite IH. rewrite insertBack_perm. apply Permutation_sym, Permutation_middle.
Qed.

Lemma sort_perm {A} (comparefn : A -> A -> Z) array :
  Permutation (Js.sort comparefn array) array.
Proof.
  unfold Js.sort, Js.sortRev.
  rewrite <- Permutation_rev, fold_insertBack_perm, app_nil_r.
  apply Permutation_refl.
Qed.

Lemma sort_In {A} (comparefn : A -> A -> Z) array x :
  In x (Js.sort comparefn array) <-> In x array.
Proof.
  split; apply Permutation_in;
    [apply sort_perm | apply Permutation_sym, sort_perm].
Qed.

Lemma first_cons {A} (x : A) l : first (x :: l) = Some x.
Proof. reflexivity. Qed.

Lemma last_app {A} (l : list A) (x : A) : last (l ++ [x]) = Some x.
Proof.
  unfold last, Js.at_. rewrite length_app. cbn [List.length].
  destruct (Z.ltb_spec (Z.of_nat (List.length l + 1) - 1) 0); [lia|].
  replace (Z.to_nat (Z.of_nat (List.length l + 1) - 1)) with (List.length l)
    by lia.
  rewrite nth_error_app2 by lia. now rewrite Nat.sub_diag.
Qed.

Lemma last_nonempty {A} (l : list A) :
  l <> [] -> exists x, last l = Some x /\ In x l.
Proof.
  intros Hne. destruct (exists_last Hne) as [l' [x ->]].
  exists x. split; [apply last_app|].
  apply in_or_app. right. now left.
Qed.

(** Slices that meet end to end. *)
Lemma substring_glue s : forall a n m,
  substring a n s ++ substring (a + n) m s = substring a (n + m) s.
Proof.
  induction s as [|c s IH]; intros a n m.
  - destruct a, n, m; reflexivity.
  - destruct a as [|a].
    + destruct n as [|n]; cbn [Nat.add].
      * destruct m; reflexivity.
      * cbn [substring append]. f_equal. apply (IH 0 n m).
    + cbn [Nat.add substring]. apply IH.
Qed.

Lemma slice_glue s a b c :
  a <= b -> b <= c -> Js.slice s a b ++ Js.slice s b c = Js.slice s a c.
Proof.
  intros Hab Hbc. unfold Js.slice.
  replace b with (a + (b - a)) at 2 by lia.
  rewrite substring_glue. f_equal. lia.
Qed.

Lemma append_assoc (s1 s2 s3 : string) : (s1 ++ s2) ++ s3 = s1 ++ (s2 ++ s3).
Proof. induction s1 as [|c s1 IH]; cbn; [reflexivity|now rewrite IH]. Qed.

Lemma append_nil_r (s : string) : s ++ "" = s.
Proof. induction s as [|c s IH]; cbn; [reflexivity|now rewrite IH]. Qed.

Lemma length_append (s1 s2 : string) :
  String.length (s1 ++ s2) = String.length s1 + String.length s2.
Proof. induction s1 as [|c s1 IH]; cbn; [reflexivity|now rewrite IH]. Qed.

End JsFacts.

(* ------------------------------------------------------------------ *)
(** ** The splicer *)

Section Splicer.

Variable context : Context.
Context {A : Type} `{Node A}.

Lemma same_refl (a : A) : same a a = true.
Proof. destruct (same_spec a a); [reflexivity|contradiction]. Qed.

Lemma same_false (a b : A) : a <> b -> same a b = false.
Proof. intros Hne. destruct (same_spec a b); [contradiction|reflexivity]. Qed.

Lemma indexOf_from_gap rest : forall pre prev node,
  In node rest ->
  exists p x,
    (Js.indexOf_from same rest node (Z.of_nat (S (List.length pre))) =? 0)%Z
    = false
    /\ Js.at_ (pre ++ prev :: rest)
         (Js.indexOf_from same rest node (Z.of_nat (S (List.length pre))) - 1)
       = Some p
    /\ Js.at_ (pre ++ prev :: rest)
         (Js.indexOf_from same rest node (Z.of_nat (S (List.length pre))))
       = Some x
    /\ getCodeBetween context p x = gapOf context prev rest node.
Proof.
  induction rest as [|y r IH]; intros pre prev node Hin; [contradiction|].
  cbn [Js.indexOf_from gapOf].
  destruct (same_spec y node) as [Heq|Hne].
  - exists prev, y. split; [|split; [|split]].
    + apply Z.eqb_neq. lia.
    + replace (Z.of_nat (S (List.length pre)) - 1)%Z
        with (Z.of_nat (List.length pre)) by lia.
      rewrite at_of_nat, nth_error_app2 by lia.
      now rewrite Nat.sub_diag.
    + rewrite at_of_nat, nth_error_app2 by lia.
      now replace (S (List.length pre) - List.length pre) with 1 by lia.
    + reflexivity.
  - destruct Hin as [Hin|Hin]; [contradiction|].
    destruct (IH (pre ++ [prev])%list y node Hin) as [p [x IHx]].
    rewrite length_app in IHx. cbn [List.length] in IHx.
    replace (Z.of_nat (S (List.length pre + 1)))
      with (Z.of_nat (S (List.length pre)) + 1)%Z in IHx by lia.
    rewrite <- app_assoc in IHx. cbn [app] in IHx.
    exists p, x. exact IHx.
Qed.

Lemma sortNodes_step_spec original result node index :
  In node original ->
  sortNodes_step context original result node index
  = Some (result ++ gapBefore context original node index
                 ++ getText context node).
Proof.
  intros Hin. destruct original as [|o rest]; [contradiction|].
  unfold sortNodes_step, Js.indexOf, gapBefore.
  cbn [Js.indexOf_from].
  destruct (same_spec o node) as [Heq|Hne].
  - cbn [Z.eqb negb]. destruct (index =? 0); reflexivity.
  - destruct Hin as [Hin|Hin]; [contradiction|].
    destruct (indexOf_from_gap rest [] o node Hin) as [p [x [Hk [Hp [Hx Hgap]]]]].
    cbn [List.length app Z.of_nat Pos.of_succ_nat] in Hk, Hp, Hx.
    cbn [Z.add]. rewrite Hk. cbn [negb]. rewrite Hp, Hx, Hgap. reflexivity.
Qed.

Lemma reduce_from_segments original sorted : forall index acc,
  Forall (fun n => In n original) sorted ->
  Js.reduce_from (sortNodes_step context original) sorted index acc
  = Some (acc ++ joinSegments (segments context original sorted index)).
Proof.
  induction sorted as [|n sorted IH]; intros index acc Hall.
  - cbn. now rewrite JsFacts.append_nil_r.
  - inversion Hall as [|? ? Hn Hrest]; subst.
    cbn [Js.reduce_from segments joinSegments fold_right fst snd].
    rewrite sortNodes_step_spec by assumption.
    rewrite IH by assumption.
    fold (joinSegments (segments context original sorted (S index))).
    now rewrite !JsFacts.append_assoc.
Qed.

(** The splicer returns on every rearrangement of its input. *)
Lemma sortNodes_segments original sorted :
  Forall (fun n => In n original) sorted ->
  sortNodes context original sorted
  = Some (joinSegments (segments context original sorted 0)).
Proof.
  intros Hall. unfold sortNodes, Js.reduce.
  now rewrite reduce_from_segments.
Qed.

Lemma Permutation_Forall_In (original sorted : list A) :
  Permutation original sorted -> Forall (fun n => In n original) sorted.
Proof.
  intros Hperm. apply Forall_forall. intros n Hn.
  apply Permutation_in with (l := sorted); [now apply Permutation_sym|exact Hn].
Qed.

End Splicer.

Section IdentitySplice.

Variable context : Context.
Context {A : Type} `{Node A}.

Lemma laidOut_weaken (l : list A) pos pos' :
  pos' <= pos -> laidOut pos l -> laidOut pos' l.
Proof.
  destruct l as [|n r]; [trivial|].
  cbn. intros Hle [Hpos Hrest]. split; [lia|exact Hrest].
Qed.

Lemma laidOut_starts (l : list A) : forall pos,
  laidOut pos l -> Forall (fun x => pos <= fst (range x)) l.
Proof.
  induction l as [|n r IH]; intros pos Hl; constructor.
  - apply Hl.
  - destruct Hl as [Hpos [Hlen Hrest]].
    apply IH. apply laidOut_weaken with (pos := snd (range n)); [lia|exact Hrest].
Qed.

Lemma laidOut_NoDup (l : list A) : forall pos, laidOut pos l -> NoDup l.
Proof.
  induction l as [|n r IH]; intros pos Hl; constructor.
  - destruct Hl as [_ [Hlen Hrest]]. intros Hin.
    pose proof (laidOut_starts r _ Hrest) as Hstarts.
    rewrite Forall_forall in Hstarts. specialize (Hstarts n Hin). lia.
  - destruct Hl as [_ [_ Hrest]]. exact (IH _ Hrest).
Qed.

Lemma last_cons (pre : list A) : forall y d,
  List.last (y :: pre) d = List.last pre y.
Proof.
  induction pre as [|a pre IH]; intros y d; [reflexivity|].
  change (List.last (y :: a :: pre) d) with (List.last (a :: pre) d).
  rewrite (IH a d), (IH a y). reflexivity.
Qed.

Lemma gapOf_skip (pre : list A) : forall prev x suf,
  ~ In x pre ->
  gapOf context prev (pre ++ x :: suf) x
  = getCodeBetween context (List.last pre prev) x.
Proof.
  induction pre as [|y pre IH]; intros prev x suf Hnotin.
  - cbn. now rewrite same_refl.
  - cbn [app gapOf]. rewrite same_false.
    + rewrite IH.
      * now rewrite last_cons.
      * intros Hin. apply Hnotin. now right.
    + intros ->. apply Hnotin. now left.
Qed.

Lemma last_snoc (pre : list A) (x d : A) : List.last (pre ++ [x]) d = x.
Proof. apply last_last. Qed.

Lemma segments_joined (suf : list A) : forall o pre index,
  NoDup (o :: pre ++ suf) ->
  index <> 0 ->
  joinSegments (segments context (o :: pre ++ suf) suf index)
  = joined context (List.last pre o) suf.
Proof.
  induction suf as [|x suf IH]; intros o pre index Hnodup Hindex.
  - reflexivity.
  - cbn [segments joinSegments fold_right fst snd joined].
    fold (joinSegments (segments context (o :: pre ++ x :: suf) suf (S index))).
    assert (Hox : o <> x).
    { inversion Hnodup as [|? ? Hnotin _]; subst. intros ->.
      apply Hnotin, in_or_app. right. now left. }
    assert (Hpre : ~ In x pre).
    { inversion Hnodup as [|? ? _ Hrest]; subst.
      apply NoDup_remove_2 in Hrest. intros Hin. apply Hrest.
      apply in_or_app. now left. }
    unfold gapBefore. rewrite (same_false o x Hox), gapOf_skip by assumption.
    do 2 f_equal.
    specialize (IH o (pre ++ [x])%list (S index)).
    rewrite <- app_assoc in IH. cbn [app] in IH.
    rewrite IH by (assumption || discriminate).
    now rewrite last_snoc.
Qed.

Lemma joined_span (suf : list A) : forall a prev,
  a <= snd (range prev) ->
  laidOut (snd (range prev)) suf ->
  Js.slice (sourceText context) a (snd (range prev)) ++ joined context prev suf
  = Js.slice (sourceText context) a (snd (range (List.last suf prev))).
Proof.
  induction suf as [|x suf IH]; intros a prev Ha Hl.
  - cbn. apply JsFacts.append_nil_r.
  - destruct Hl as [Hpos [Hlen Hrest]].
    cbn [joined]. unfold getCodeBetween, getText.
    rewrite <- !JsFacts.append_assoc.
    rewrite JsFacts.slice_glue by lia.
    rewrite JsFacts.slice_glue by lia.
    rewrite IH by (lia || assumption).
    now rewrite last_cons.
Qed.

Lemma last_is_last (l : list A) (x : A) :
  last (x :: l) = Some (List.last l x).
Proof.
  destruct (exists_last (l := x :: l)) as [l' [y Heq]]; [discriminate|].
  rewrite Heq, JsFacts.last_app.
  f_equal.
  assert (Hlast : List.last (x :: l) x = y).
  { rewrite Heq. apply last_last. }
  rewrite <- Hlast. now rewrite last_cons.
Qed.

Lemma identity_splice original firstNode lastNode :
  laidOut 0 original ->
  first original = Some firstNode ->
  last original = Some lastNode ->
  sortNodes context original original
  = Some (Js.slice (sourceText context)
            (fst (range firstNode)) (snd (range lastNode))).
Proof.
  intros Hl Hfirst Hlast.
  destruct original as [|o rest]; [discriminate|].
  rewrite JsFacts.first_cons in Hfirst. injection Hfirst as <-.
  rewrite last_is_last in Hlast. injection Hlast as <-.
  rewrite sortNodes_segments by (apply Permutation_Forall_In, Permutation_refl).
  f_equal.
  cbn [segments joinSegments fold_right fst snd].
  fold (joinSegments (segments context (o :: rest) rest 1)).
  unfold gapBefore. rewrite same_refl. cbn [Nat.eqb append].
  pose proof (segments_joined rest o [] 1 (laidOut_NoDup _ _ Hl)) as Hj.
  cbn [app] in Hj. rewrite Hj by discriminate.
  cbn [List.last]. unfold getText.
  destruct Hl as [_ [Hlen Hrest]].
  apply joined_span; [lia|exact Hrest].
Qed.

End IdentitySplice.

(** C5.  Spliced to its own order, a sequence of nodes laid out in the
    source gives back the text of the span from the start of its first
    node to the end of its last, whatever lies between the nodes; so the
    trimmed output is the trimmed span. *)
Theorem C5_identity_splice_is_span context {A : Type} `{Node A}
  (original : list A) (firstNode lastNode : A) :
  laidOut 0 original ->
  first original = Some firstNode ->
  last original = Some lastNode ->
  option_map Js.trim (sortNodes context original original)
  = Some (Js.trim (Js.slice (getSourceCode context)
                     (fst (range firstNode)) (snd (range lastNode)))).
Proof.
  intros Hl Hfirst Hlast.
  rewrite (identity_splice context original firstNode lastNode) by assumption.
  reflexivity.
Qed.

Lemma C5_identity_splice_is_span_witness :
  option_map Js.trim
    (sortNodes Samples.commentedContext Samples.commentedImports
       Samples.commentedImports)
  = Some (Js.trim (Js.slice (getSourceCode Samples.commentedContext) 0 35)).
Proof.
  assert (Hlayout : laidOut 0 Samples.commentedImports)
    by (vm_compute; lia).
  exact (C5_identity_splice_is_span Samples.commentedContext
           Samples.commentedImports
           (Samples.declaration "./b" [] 0 13)
           (Samples.declaration "./a" [] 22 35)
           Hlayout eq_refl eq_refl).
Defined.

Section SpliceLength.

Variable context : Context.
Context {A : Type} `{Node A}.

Lemma list_sum_perm (l1 l2 : list nat) :
  Permutation l1 l2 -> list_sum l1 = list_sum l2.
Proof. unfold list_sum. induction 1; cbn [fold_right]; lia. Qed.

Lemma totalLength_cons (s : string) (l : list string) :
  totalLength (s :: l) = String.length s + totalLength l.
Proof. reflexivity. Qed.

Lemma totalLength_perm (l1 l2 : list string) :
  Permutation l1 l2 -> totalLength l1 = totalLength l2.
Proof.
  intros Hperm. unfold totalLength.
  apply list_sum_perm, Permutation_map, Hperm.
Qed.

Lemma list_sum_cons (n : nat) (l : list nat) :
  list_sum (n :: l) = n + list_sum l.
Proof. reflexivity. Qed.

Lemma joinSegments_cons (segment : string * string) l :
  joinSegments (segment :: l)
  = fst segment ++ snd segment ++ joinSegments l.
Proof. reflexivity. Qed.

Lemma joinSegments_length (l : list (string * string)) :
  String.length (joinSegments l)
  = totalLength (map fst l) + totalLength (map snd l).
Proof.
  induction l as [|[gap text] l IH]; [reflexivity|].
  rewrite joinSegments_cons. cbn [map fst snd].
  rewrite !totalLength_cons, !JsFacts.length_append, IH. lia.
Qed.

Lemma segments_texts original sorted : forall index,
  map snd (segments context original sorted index)
  = map (getText context) sorted.
Proof.
  induction sorted as [|n sorted IH]; intros index; [reflexivity|].
  cbn. now rewrite IH.
Qed.

Lemma gapBefore_length_first original n :
  String.length (gapBefore context original n 0) = ownGap context original n.
Proof.
  destruct original as [|o rest]; [reflexivity|].
  cbn. destruct (same o n); reflexivity.
Qed.

Lemma gapBefore_length_later original n index :
  String.length (gapBefore context original n (S index))
  = ownGap context original n + (if isFirstOf original n then 1 else 0).
Proof.
  destruct original as [|o rest]; [reflexivity|].
  cbn. destruct (same o n); cbn; lia.
Qed.

Lemma segments_gaps_later original sorted : forall index,
  totalLength (map fst (segments context original sorted (S index)))
  = list_sum (map (ownGap context original) sorted)
    + List.length (filter (isFirstOf original) sorted).
Proof.
  induction sorted as [|n sorted IH]; intros index; [reflexivity|].
  cbn [segments map fst filter].
  rewrite totalLength_cons, list_sum_cons, gapBefore_length_later, IH.
  destruct (isFirstOf original n); cbn [List.length]; lia.
Qed.

Lemma originalGaps_cons (a b : A) (r : list A) :
  originalGaps context (a :: b :: r)
  = getCodeBetween context a b :: originalGaps context (b :: r).
Proof. reflexivity. Qed.

Lemma gapOf_sum (rest : list A) : forall prev,
  NoDup rest ->
  list_sum (map (fun n => String.length (gapOf context prev rest n)) rest)
  = totalLength (originalGaps context (prev :: rest)).
Proof.
  induction rest as [|x r IH]; intros prev Hnodup; [reflexivity|].
  inversion Hnodup as [|? ? Hnotin Hr]; subst.
  cbn [map gapOf].
  rewrite originalGaps_cons, list_sum_cons, totalLength_cons, same_refl.
  f_equal.
  rewrite <- (IH x Hr). f_equal.
  apply map_ext_in. intros n Hn.
  rewrite same_false; [reflexivity|].
  intros ->. contradiction.
Qed.

Lemma ownGap_sum original :
  NoDup original ->
  list_sum (map (ownGap context original) original)
  = totalLength (originalGaps context original).
Proof.
  destruct original as [|o rest]; [reflexivity|].
  intros Hnodup. inversion Hnodup as [|? ? Hnotin Hrest]; subst.
  cbn [map]. rewrite list_sum_cons. unfold ownGap at 1. rewrite same_refl.
  rewrite <- (gapOf_sum rest o Hrest). cbn [Nat.add]. f_equal.
  apply map_ext_in. intros n Hn. unfold ownGap.
  rewrite same_false; [reflexivity|].
  intros ->. contradiction.
Qed.

Lemma filter_absent (o : A) (l : list A) :
  ~ In o l -> filter (same o) l = [].
Proof.
  induction l as [|x l IH]; intros Hnotin; [reflexivity|].
  cbn. rewrite same_false.
  - apply IH. intros Hin. apply Hnotin. now right.
  - intros ->. apply Hnotin. now left.
Qed.

Lemma filter_once (o : A) (l : list A) :
  NoDup l -> In o l -> List.length (filter (same o) l) = 1.
Proof.
  induction l as [|x l IH]; intros Hnodup Hin; [contradiction|].
  inversion Hnodup as [|? ? Hnotin Hl]; subst. cbn.
  destruct (same_spec o x) as [<-|Hne].
  - cbn. now rewrite filter_absent.
  - destruct Hin as [Heq|Hin]; [congruence|]. now apply IH.
Qed.

Lemma segments_gaps original target :
  NoDup original ->
  Permutation original target ->
  totalLength (map fst (segments context original target 0))
  = totalLength (originalGaps context original) + movedFirst original target.
Proof.
  intros Hnodup Hperm.
  assert (Htarget : NoDup target)
    by (eapply Permutation_NoDup; eassumption).
  rewrite <- (ownGap_sum original Hnodup).
  rewrite (list_sum_perm _ _ (Permutation_map (ownGap context original) Hperm)).
  destruct target as [|t ts].
  { apply Permutation_sym, Permutation_nil in Hperm. subst. reflexivity. }
  cbn [segments map fst].
  rewrite totalLength_cons, list_sum_cons, gapBefore_length_first.
  rewrite (segments_gaps_later original ts 0).
  destruct original as [|o rest].
  { apply Permutation_nil in Hperm. discriminate. }
  cbn [movedFirst]. unfold isFirstOf.
  replace (filter (fun n => same o n) ts) with (filter (same o) ts) by reflexivity.
  inversion Htarget as [|? ? Hnotin Hts]; subst.
  destruct (same_spec o t) as [<-|Hne].
  - rewrite filter_absent by assumption. cbn. lia.
  - rewrite filter_once; [lia|assumption|].
    assert (Hin : In o (t :: ts))
      by (eapply Permutation_in; [eassumption|now left]).
    destruct Hin as [Heq|Hin]; [congruence|assumption].
Qed.

End SpliceLength.

(** C6.  Spliced to any rearrangement of itself, a sequence of distinct
    nodes gives the segments of the target joined in order, one per node:
    the texts in the output are the raw texts of the target, hence of the
    input, each once; and the length of the output is the length of the
    raw texts, of every original gap, and of one line break when the
    originally first node is no longer first. *)
Theorem C6_splice_keeps_every_text context {A : Type} `{Node A}
  (original target : list A) :
  NoDup original ->
  Permutation original target ->
  exists out,
    sortNodes context original target = Some out
    /\ out = joinSegments (segments context original target 0)
    /\ map snd (segments context original target 0)
       = map (getText context) target
    /\ Permutation (map (getText context) target)
                   (map (getText context) original)
    /\ String.length out
       = totalLength (map (getText context) original)
         + totalLength (originalGaps context original)
         + movedFirst original target.
Proof.
  intros Hnodup Hperm.
  exists (joinSegments (segments context original target 0)).
  split; [|split; [|split; [|split]]].
  - apply sortNodes_segments, Permutation_Forall_In, Hperm.
  - reflexivity.
  - apply segments_texts.
  - apply Permutation_map, Permutation_sym, Hperm.
  - rewrite joinSegments_length, segments_texts, segments_gaps by assumption.
    rewrite (totalLength_perm _ _ (Permutation_map (getText context) Hperm)).
    lia.
Qed.

Lemma C6_splice_keeps_every_text_witness :
  exists out,
    sortNodes Samples.commentedContext Samples.commentedImports
      (rev Samples.commentedImports) = Some out
    /\ out = joinSegments
               (segments Samples.commentedContext Samples.commentedImports
                  (rev Samples.commentedImports) 0)
    /\ map snd
         (segments Samples.commentedContext Samples.commentedImports
            (rev Samples.commentedImports) 0)
       = map (getText Samples.commentedContext) (rev Samples.commentedImports)
    /\ Permutation
         (map (getText Samples.commentedContext) (rev Samples.commentedImports))
         (map (getText Samples.commentedContext) Samples.commentedImports)
    /\ String.length out
       = totalLength
           (map (getText Samples.commentedContext) Samples.commentedImports)
         + totalLength
             (originalGaps Samples.commentedContext Samples.commentedImports)
         + movedFirst Samples.commentedImports (rev Samples.commentedImports).
Proof.
  assert (Hnodup : NoDup Samples.commentedImports).
  { apply (laidOut_NoDup _ 0). vm_compute. lia. }
  exact (C6_splice_keeps_every_text Samples.commentedContext
           Samples.commentedImports (rev Samples.commentedImports)
           Hnodup (Permutation_rev Samples.commentedImports)).
Defined.

(* ------------------------------------------------------------------ *)
(** ** The rewrites *)

Section Rewrites.

Variable context : Context.

Lemma at_Some_nonempty {A} (l : list A) i x : Js.at_ l i = Some x -> l <> [].
Proof.
  unfold Js.at_. destruct (i <? 0)%Z; [discriminate|].
  destruct l; [|discriminate]. now destruct (Z.to_nat i).
Qed.

Lemma first_last_nonempty {A} (l : list A) :
  l <> [] ->
  exists firstNode lastNode,
    first l = Some firstNode /\ last l = Some lastNode.
Proof.
  intros Hne. destruct l as [|x l]; [contradiction|].
  exists x. destruct (JsFacts.last_nonempty (x :: l) Hne) as [y [Hy _]].
  exists y. split; [reflexivity|exact Hy].
Qed.

Lemma sort_Forall_In {A} (comparefn : A -> A -> Z) (l : list A) :
  Forall (fun n => In n l) (Js.sort comparefn l).
Proof.
  apply Permutation_Forall_In, Permutation_sym, JsFacts.sort_perm.
Qed.

(** The closure for the bindings returns a fix on every array that is
    not empty, and the fix spans the first to the last element. *)
Lemma fixImportMembers_runs specifiers :
  specifiers <> [] ->
  exists firstNode lastNode,
    first specifiers = Some firstNode
    /\ last specifiers = Some lastNode
    /\ fixImportMembers context specifiers hostFixer
       = Some {| fix_range := (fst (range firstNode), snd (range lastNode));
                 fix_text :=
                   Js.trim
                     (joinSegments
                        (segments context specifiers
                           (Js.sort (compareMembers context) specifiers) 0)) |}.
Proof.
  intros Hne.
  destruct (first_last_nonempty specifiers Hne) as [f [l [Hf Hl]]].
  exists f, l. repeat split; try assumption.
  unfold fixImportMembers. rewrite Hf, Hl.
  rewrite sortNodes_segments by apply sort_Forall_In.
  reflexivity.
Qed.

Lemma fixImportDefinitions_runs imports :
  imports <> [] ->
  exists firstNode lastNode,
    first imports = Some firstNode
    /\ last imports = Some lastNode
    /\ fixImportDefinitions context imports hostFixer
       = Some {| fix_range := (fst (range firstNode), snd (range lastNode));
                 fix_text :=
                   Js.trim
                     (joinSegments
                        (segments context imports
                           (Js.sort compareDefinitions imports) 0)) |}.
Proof.
  intros Hne.
  destruct (first_last_nonempty imports Hne) as [f [l [Hf Hl]]].
  exists f, l. repeat split; try assumption.
  unfold fixImportDefinitions. rewrite Hf, Hl.
  rewrite sortNodes_segments by apply sort_Forall_In.
  reflexivity.
Qed.

Lemma forEach_from_In {A R} (callback : A -> nat -> list A -> list R)
  array rest : forall i r,
  In r (Js.forEach_from callback array rest i) ->
  exists x j, In x rest /\ In r (callback x j array).
Proof.
  induction rest as [|x rest IH]; intros i r Hin; [contradiction|].
  cbn in Hin. apply in_app_or in Hin. destruct Hin as [Hin|Hin].
  - exists x, i. split; [now left|exact Hin].
  - destruct (IH _ _ Hin) as [y [j [Hy Hr]]].
    exists y, j. split; [now right|exact Hr].
Qed.

Lemma checkMembers_rewrite declaration r :
  In r (checkMembers context declaration) -> rewriteRule r.
Proof.
  unfold checkMembers.
  set (named := filter isImportSpecifier (specifiers declaration)).
  destruct (negb _); [|contradiction].
  destruct (Js.at_ named _) as [unsorted|] eqn:Hat; [|contradiction].
  intros [<-|[]]. split; cbn [message fix_].
  - discriminate.
  - intros _.
    destruct (fixImportMembers_runs named (at_Some_nonempty _ _ _ Hat))
      as [f [l [_ [_ Hfix]]]].
    eexists _, _. split; [reflexivity|exact Hfix].
Qed.

Lemma checkDeclaration_rewrite node imports current index r :
  In current imports ->
  In r (checkDeclaration context node imports current index imports) ->
  rewriteRule r.
Proof.
  intros Hcurrent. unfold checkDeclaration.
  assert (Hne : imports <> []) by (intros ->; contradiction).
  destruct (fixImportDefinitions_runs imports Hne) as [f [l [_ [_ Hfix]]]].
  destruct (index =? 0); [contradiction|].
  destruct (Js.at_ imports _) as [prev|]; [|contradiction].
  destruct (String.eqb _ _).
  { intros [<-|[]]. split; cbn [message fix_];
      [reflexivity|intros Hm; now contradiction Hm]. }
  destruct (_ || _); [contradiction|].
  repeat match goal with
         | |- In r (if ?c then _ else _) -> _ => destruct c
         end;
    try contradiction;
    (intros [<-|[]]; split; cbn [message fix_];
     [discriminate|intros _; eexists _, _; split; [reflexivity|exact Hfix]]).
Qed.

End Rewrites.

(** C8.  In every pass, a report of a module imported twice has no fix,
    and every other report has one, a closure that returns a text
    replacement when the host calls it. *)
Theorem C8_rewrite_unless_duplicate context node r :
  In r (Program context node) ->
  (message r = DuplicateModule -> fix_ r = None)
  /\ (message r <> DuplicateModule ->
      exists closure edit, fix_ r = Some closure /\ closure hostFixer = Some edit).
Proof.
  unfold Program. intros Hin. apply in_app_or in Hin.
  destruct Hin as [Hin|Hin].
  - destruct (sortMembers context); [|contradiction].
    apply forEach_from_In in Hin. destruct Hin as [declaration [_ [_ Hr]]].
    exact (checkMembers_rewrite context declaration r Hr).
  - apply forEach_from_In in Hin. destruct Hin as [current [index [Hc Hr]]].
    exact (checkDeclaration_rewrite context node _ current index r Hc Hr).
Qed.

Lemma C8_rewrite_unless_duplicate_witness :
  (message Samples.swappedReport = DuplicateModule ->
   fix_ Samples.swappedReport = None)
  /\ (message Samples.swappedReport <> DuplicateModule ->
      exists closure edit,
        fix_ Samples.swappedReport = Some closure
        /\ closure hostFixer = Some edit).
Proof.
  apply (C8_rewrite_unless_duplicate Samples.swappedContext
           (Samples.programOf Samples.swappedImports)).
  left. reflexivity.
Defined.

(* ------------------------------------------------------------------ *)
(** ** The frame of a rewrite of bindings *)

Module TextFacts.

Lemma substring_zero (s : string) : forall a, substring a 0 s = "".
Proof.
  induction s as [|c s IH]; intros [|a]; try reflexivity. cbn. apply IH.
Qed.

Lemma substring_all (s : string) : substring 0 (String.length s) s = s.
Proof. induction s as [|c s IH]; cbn; [reflexivity|now rewrite IH]. Qed.

Lemma substring_append_left (s1 s2 : string) : forall a n,
  a + n <= String.length s1 ->
  substring a n (s1 ++ s2) = substring a n s1.
Proof.
  induction s1 as [|c s1 IH]; intros a n Hle; cbn in Hle.
  - assert (a = 0) by lia. assert (n = 0) by lia. subst.
    cbn. now rewrite substring_zero.
  - destruct a as [|a].
    + destruct n as [|n]; [reflexivity|].
      cbn. f_equal. apply (IH 0 n). lia.
    + cbn. apply IH. lia.
Qed.

Lemma substring_prefix (s : string) : forall a n p,
  a + n <= p -> substring a n (substring 0 p s) = substring a n s.
Proof.
  induction s as [|c s IH]; intros a n p Hle.
  - destruct p; reflexivity.
  - destruct p as [|p].
    + assert (a = 0) by lia. assert (n = 0) by lia. subst. reflexivity.
    + destruct a as [|a].
      * destruct n as [|n]; [reflexivity|].
        cbn. f_equal. apply (IH 0 n p). lia.
      * cbn. apply IH. lia.
Qed.

Lemma length_prefix (s : string) : forall p,
  p <= String.length s -> String.length (substring 0 p s) = p.
Proof.
  induction s as [|c s IH]; intros [|p] Hle; cbn in *; try reflexivity; try lia.
  f_equal. apply IH. lia.
Qed.

Lemma sliceFrom_append (s1 s2 : string) :
  Js.sliceFrom (s1 ++ s2) (String.length s1) = s2.
Proof.
  unfold Js.sliceFrom. rewrite JsFacts.length_append.
  replace (String.length s1 + String.length s2 - String.length s1)
    with (String.length s2) by lia.
  induction s1 as [|c s1 IH]; cbn.
  - apply substring_all.
  - exact IH.
Qed.

(** Below the start of its range, a fix leaves the text as it is. *)
Lemma applyFix_before text edit a b :
  fst (fix_range edit) <= String.length text ->
  b <= fst (fix_range edit) ->
  Js.slice (applyFix text edit) a b = Js.slice text a b.
Proof.
  intros Hstart Hb. unfold applyFix, Js.slice.
  rewrite Nat.sub_0_r.
  destruct (Nat.le_gt_cases b a) as [Hba|Hab].
  - replace (b - a) with 0 by lia. now rewrite !substring_zero.
  - rewrite substring_append_left
      by (rewrite length_prefix by assumption; lia).
    apply substring_prefix. lia.
Qed.

(** After the replacement comes the text that followed the range. *)
Lemma applyFix_after text edit :
  fst (fix_range edit) <= String.length text ->
  Js.sliceFrom (applyFix text edit)
    (fst (fix_range edit) + String.length (fix_text edit))
  = Js.sliceFrom text (snd (fix_range edit)).
Proof.
  intros Hstart. unfold applyFix.
  rewrite <- JsFacts.append_assoc.
  replace (fst (fix_range edit) + String.length (fix_text edit))
    with (String.length (Js.slice text 0 (fst (fix_range edit))
                         ++ fix_text edit)).
  - apply sliceFrom_append.
  - rewrite JsFacts.length_append. unfold Js.slice.
    rewrite Nat.sub_0_r, length_prefix by assumption. reflexivity.
Qed.

End TextFacts.

Section MemberRewrite.

Variable context : Context.

Lemma first_In {A} (l : list A) x : first l = Some x -> In x l.
Proof. destruct l; [discriminate|]. intros [= <-]. now left. Qed.

Lemma last_In {A} (l : list A) x : last l = Some x -> In x l.
Proof.
  intros Hlast.
  destruct l as [|y l]; [discriminate|].
  destruct (JsFacts.last_nonempty (y :: l)) as [z [Hz Hin]]; [discriminate|].
  rewrite Hz in Hlast. now injection Hlast as <-.
Qed.

Lemma filter_filter {A} (p : A -> bool) (l : list A) :
  filter p (filter p l) = filter p l.
Proof.
  induction l as [|x l IH]; [reflexivity|].
  cbn. destruct (p x) eqn:Hp; cbn; rewrite ?Hp, IH; reflexivity.
Qed.

Lemma fixImportMembers_range specifiers edit :
  fixImportMembers context specifiers hostFixer = Some edit ->
  exists firstNode lastNode,
    first specifiers = Some firstNode
    /\ last specifiers = Some lastNode
    /\ fix_range edit = (fst (range firstNode), snd (range lastNode)).
Proof.
  unfold fixImportMembers.
  destruct (first specifiers) as [f|]; [|discriminate].
  destruct (last specifiers) as [l|]; [|discriminate].
  destruct (sortNodes context specifiers _); [|discriminate].
  intros [= <-]. exists f, l. repeat split.
Qed.

End MemberRewrite.

(** C10.  The rewrite of the bindings of a statement is built from its
    [ImportSpecifier] nodes alone and replaces the range from the start of
    the first of them to the end of the last; the check itself does not
    see the other specifiers.  Applied to the text, it leaves every
    character before that range, a leading default import among them, and
    every character after it as they were. *)
Theorem C10_member_rewrite_frame context declaration edit :
  let text := getSourceCode context in
  let named := filter isImportSpecifier (specifiers declaration) in
  fixImportMembers context named hostFixer = Some edit ->
  (forall s, In s named -> fst (range s) <= String.length text) ->
  exists firstNamed lastNamed,
    first named = Some firstNamed
    /\ last named = Some lastNamed
    /\ isImportSpecifier firstNamed = true
    /\ isImportSpecifier lastNamed = true
    /\ fix_range edit = (fst (range firstNamed), snd (range lastNamed))
    /\ checkMembers context declaration
       = checkMembers context
           {| source := source declaration; specifiers := named;
              decl_range := decl_range declaration |}
    /\ (forall a b, b <= fst (range firstNamed) ->
          Js.slice (applyFix text edit) a b = Js.slice text a b)
    /\ Js.sliceFrom (applyFix text edit)
         (fst (range firstNamed) + String.length (fix_text edit))
       = Js.sliceFrom text (snd (range lastNamed))
    /\ (forall d, In d (specifiers declaration) ->
          isImportSpecifier d = false ->
          snd (range d) <= fst (range firstNamed) ->
          Js.slice (applyFix text edit) (fst (range d)) (snd (range d))
          = getText context d).
Proof.
  intros text named Hfix Hbound.
  destruct (fixImportMembers_range context named edit Hfix)
    as [f [l [Hf [Hl Hrange]]]].
  pose proof (first_In _ _ Hf) as Hfin.
  pose proof (last_In _ _ Hl) as Hlin.
  assert (Hstart : fst (fix_range edit) <= String.length text).
  { rewrite Hrange. cbn [fst]. now apply Hbound. }
  exists f, l. repeat split; try assumption.
  - apply filter_In in Hfin. apply Hfin.
  - apply filter_In in Hlin. apply Hlin.
  - unfold checkMembers. cbn [specifiers].
    unfold named. rewrite filter_filter. reflexivity.
  - intros a b Hb. apply TextFacts.applyFix_before; [assumption|].
    rewrite Hrange. exact Hb.
  - pose proof (TextFacts.applyFix_after text edit Hstart) as Hafter.
    rewrite Hrange in Hafter. exact Hafter.
  - intros d _ _ Hd. unfold getText.
    apply TextFacts.applyFix_before; [assumption|].
    rewrite Hrange. exact Hd.
Qed.

Lemma C10_member_rewrite_frame_witness :
  exists firstNamed lastNamed,
    first (filter isImportSpecifier
                (specifiers Samples.leadingDefaultDeclaration))
    = Some firstNamed
    /\ last (filter isImportSpecifier
                  (specifiers Samples.leadingDefaultDeclaration))
       = Some lastNamed
    /\ isImportSpecifier firstNamed = true
    /\ isImportSpecifier lastNamed = true
    /\ fix_range Samples.leadingDefaultEdit
       = (fst (range firstNamed), snd (range lastNamed))
    /\ checkMembers Samples.leadingDefaultContext
         Samples.leadingDefaultDeclaration
       = checkMembers Samples.leadingDefaultContext
           {| source := source Samples.leadingDefaultDeclaration;
              specifiers :=
                filter isImportSpecifier
                  (specifiers Samples.leadingDefaultDeclaration);
              decl_range := decl_range Samples.leadingDefaultDeclaration |}
    /\ (forall a b, b <= fst (range firstNamed) ->
          Js.slice (applyFix Samples.leadingDefaultText
                      Samples.leadingDefaultEdit) a b
          = Js.slice Samples.leadingDefaultText a b)
    /\ Js.sliceFrom (applyFix Samples.leadingDefaultText
                       Samples.leadingDefaultEdit)
         (fst (range firstNamed)
          + String.length (fix_text Samples.leadingDefaultEdit))
       = Js.sliceFrom Samples.leadingDefaultText (snd (range lastNamed))
    /\ (forall d, In d (specifiers Samples.leadingDefaultDeclaration) ->
          isImportSpecifier d = false ->
          snd (range d) <= fst (range firstNamed) ->
          Js.slice (applyFix Samples.leadingDefaultText
                      Samples.leadingDefaultEdit)
            (fst (range d)) (snd (range d))
          = getText Samples.leadingDefaultContext d).
Proof.
  apply (C10_member_rewrite_frame Samples.leadingDefaultContext
           Samples.leadingDefaultDeclaration Samples.leadingDefaultEdit).
  - reflexivity.
  - intros s Hs. cbn in Hs.
    destruct Hs as [<-|[<-|[]]]; vm_compute; lia.
Defined.

(* ------------------------------------------------------------------ *)
(** ** Stable sorting by a key *)

Section StableSortFacts.

Context {A K : Type}.
Variable key : A -> K.
Variable leb : K -> K -> bool.
Variable K_eq_dec : forall k1 k2 : K, {k1 = k2} + {k1 <> k2}.

Hypothesis leb_refl : forall k, leb k k = true.
Hypothesis leb_total : forall k1 k2, leb k1 k2 = true \/ leb k2 k1 = true.
Hypothesis leb_trans :
  forall k1 k2 k3, leb k1 k2 = true -> leb k2 k3 = true -> leb k1 k3 = true.
Hypothesis leb_antisym :
  forall k1 k2, leb k1 k2 = true -> leb k2 k1 = true -> k1 = k2.

Lemma keyIs_own (a : A) : keyIs key K_eq_dec (key a) a = true.
Proof.
  unfold keyIs.
  destruct (K_eq_dec (key a) (key a)); [reflexivity|contradiction].
Qed.

Lemma filter_cons_keyIs k a l :
  filter (keyIs key K_eq_dec k) (a :: l)
  = if K_eq_dec (key a) k
    then a :: filter (keyIs key K_eq_dec k) l
    else filter (keyIs key K_eq_dec k) l.
Proof. cbn [filter]. unfold keyIs at 1. now destruct (K_eq_dec (key a) k). Qed.

Lemma head_le_of_filter x l1 y l2 :
  StronglySorted (keyLe key leb) (x :: l1) ->
  filter (keyIs key K_eq_dec (key y)) (x :: l1)
  = filter (keyIs key K_eq_dec (key y)) (y :: l2) ->
  keyLe key leb x y.
Proof.
  intros Hsorted Hfilter.
  assert (Hin : In y (x :: l1)).
  { apply (proj1 (filter_In (keyIs key K_eq_dec (key y)) y (x :: l1))).
    rewrite Hfilter. cbn [filter]. rewrite keyIs_own. now left. }
  destruct Hin as [<-|Hin]; [apply leb_refl|].
  apply StronglySorted_inv in Hsorted. destruct Hsorted as [_ Hall].
  rewrite Forall_forall in Hall. now apply Hall.
Qed.

(** Two sorted lists with the same elements of every key, in the same
    order, are the same list. *)
Lemma stable_sorted_unique (l1 : list A) : forall l2,
  StronglySorted (keyLe key leb) l1 ->
  StronglySorted (keyLe key leb) l2 ->
  (forall k, filter (keyIs key K_eq_dec k) l1
             = filter (keyIs key K_eq_dec k) l2) ->
  l1 = l2.
Proof.
  induction l1 as [|x l1 IH]; intros [|y l2] S1 S2 Hfilter.
  - reflexivity.
  - specialize (Hfilter (key y)). cbn [filter] in Hfilter.
    rewrite keyIs_own in Hfilter. discriminate.
  - specialize (Hfilter (key x)). cbn [filter] in Hfilter.
    rewrite keyIs_own in Hfilter. discriminate.
  - assert (Hkey : key x = key y).
    { apply leb_antisym.
      - exact (head_le_of_filter x l1 y l2 S1 (Hfilter (key y))).
      - exact (head_le_of_filter y l2 x l1 S2 (eq_sym (Hfilter (key x)))). }
    assert (Hxy : x = y).
    { specialize (Hfilter (key x)). cbn [filter] in Hfilter.
      rewrite keyIs_own, Hkey, keyIs_own in Hfilter. now injection Hfilter. }
    subst y. f_equal.
    apply IH.
    + now apply StronglySorted_inv in S1.
    + now apply StronglySorted_inv in S2.
    + intros k. specialize (Hfilter k).
      rewrite !filter_cons_keyIs in Hfilter.
      destruct (K_eq_dec (key x) k); [now injection Hfilter|exact Hfilter].
Qed.

(** The textbook sort. *)
Lemma insertByKey_perm x sorted :
  Permutation (insertByKey key leb x sorted) (x :: sorted).
Proof.
  induction sorted as [|y r IH]; cbn; [apply Permutation_refl|].
  destruct (leb (key x) (key y)); [apply Permutation_refl|].
  rewrite IH. apply perm_swap.
Qed.

Lemma insertByKey_sorted x sorted :
  StronglySorted (keyLe key leb) sorted ->
  StronglySorted (keyLe key leb) (insertByKey key leb x sorted).
Proof.
  induction sorted as [|y r IH]; intros Hs; cbn.
  - repeat constructor.
  - apply StronglySorted_inv in Hs. destruct Hs as [Hr Hall].
    destruct (leb (key x) (key y)) eqn:Hxy.
    + constructor; [now constructor|].
      constructor; [exact Hxy|].
      eapply Forall_impl; [|exact Hall].
      intros z Hz. exact (leb_trans _ _ _ Hxy Hz).
    + constructor; [now apply IH|].
      eapply Permutation_Forall;
        [apply Permutation_sym, insertByKey_perm|].
      constructor; [|exact Hall].
      destruct (leb_total (key x) (key y)) as [Habs|Hyx];
        [congruence|exact Hyx].
Qed.

Lemma insertByKey_filter k x sorted :
  filter (keyIs key K_eq_dec k) (insertByKey key leb x sorted)
  = filter (keyIs key K_eq_dec k) (x :: sorted).
Proof.
  induction sorted as [|y r IH]; [reflexivity|].
  cbn [insertByKey]. destruct (leb (key x) (key y)) eqn:Hxy; [reflexivity|].
  rewrite filter_cons_keyIs, IH, !filter_cons_keyIs.
  destruct (K_eq_dec (key x) k) as [Hx|]; [|reflexivity].
  destruct (K_eq_dec (key y) k) as [Hy|]; [|reflexivity].
  rewrite Hx, Hy, leb_refl in Hxy. discriminate.
Qed.

Lemma stableSortByKey_sorted l :
  StronglySorted (keyLe key leb) (stableSortByKey key leb l).
Proof.
  induction l as [|x l IH]; cbn; [constructor|now apply insertByKey_sorted].
Qed.

Lemma stableSortByKey_filter k l :
  filter (keyIs key K_eq_dec k) (stableSortByKey key leb l)
  = filter (keyIs key K_eq_dec k) l.
Proof.
  induction l as [|x l IH]; [reflexivity|].
  cbn [stableSortByKey fold_right].
  fold (stableSortByKey key leb l).
  rewrite insertByKey_filter, !filter_cons_keyIs. now rewrite IH.
Qed.

(** The sort of the engine, under a comparator that is positive exactly
    when the first key is larger. *)
Variable comparefn : A -> A -> Z.
Hypothesis comparefn_key :
  forall a b, (comparefn a b >? 0)%Z = negb (leb (key a) (key b)).

Lemma insertBack_descending element revPrefix :
  StronglySorted (keyGe key leb) revPrefix ->
  StronglySorted (keyGe key leb) (Js.insertBack comparefn element revPrefix).
Proof.
  induction revPrefix as [|tmp r IH]; intros Hs; cbn.
  - repeat constructor.
  - apply StronglySorted_inv in Hs. destruct Hs as [Hr Hall].
    rewrite comparefn_key.
    destruct (leb (key tmp) (key element)) eqn:Hte; cbn [negb].
    + constructor; [now constructor|].
      constructor; [exact Hte|].
      eapply Forall_impl; [|exact Hall].
      intros z Hz. exact (leb_trans _ _ _ Hz Hte).
    + constructor; [now apply IH|].
      eapply Permutation_Forall;
        [apply Permutation_sym, JsFacts.insertBack_perm|].
      constructor; [|exact Hall].
      destruct (leb_total (key tmp) (key element)) as [Habs|Het];
        [congruence|exact Het].
Qed.

Lemma insertBack_filter k element revPrefix :
  filter (keyIs key K_eq_dec k) (Js.insertBack comparefn element revPrefix)
  = filter (keyIs key K_eq_dec k) (element :: revPrefix).
Proof.
  induction revPrefix as [|tmp r IH]; [reflexivity|].
  cbn [Js.insertBack]. rewrite comparefn_key.
  destruct (leb (key tmp) (key element)) eqn:Hte; cbn [negb]; [reflexivity|].
  rewrite filter_cons_keyIs, IH, !filter_cons_keyIs.
  destruct (K_eq_dec (key element) k) as [He|]; [|reflexivity].
  destruct (K_eq_dec (key tmp) k) as [Ht|]; [|reflexivity].
  rewrite He, Ht, leb_refl in Hte. discriminate.
Qed.

Lemma sortRev_descending array : forall revPrefix,
  StronglySorted (keyGe key leb) revPrefix ->
  StronglySorted (keyGe key leb)
    (fold_left (fun acc element => Js.insertBack comparefn element acc)
               array revPrefix).
Proof.
  induction array as [|x array IH]; intros revPrefix Hs; cbn; [exact Hs|].
  apply IH. now apply insertBack_descending.
Qed.

Lemma sortRev_filter k array : forall revPrefix,
  filter (keyIs key K_eq_dec k)
    (fold_left (fun acc element => Js.insertBack comparefn element acc)
               array revPrefix)
  = (rev (filter (keyIs key K_eq_dec k) array)
     ++ filter (keyIs key K_eq_dec k) revPrefix)%list.
Proof.
  induction array as [|x array IH]; intros revPrefix; [reflexivity|].
  cbn [fold_left]. rewrite IH, insertBack_filter, !filter_cons_keyIs.
  destruct (K_eq_dec (key x) k); [|reflexivity].
  cbn [rev]. now rewrite <- app_assoc.
Qed.

Lemma StronglySorted_snoc (R : A -> A -> Prop) l x :
  StronglySorted R l -> Forall (fun y => R y x) l ->
  StronglySorted R (l ++ [x]).
Proof.
  induction l as [|y l IH]; intros Hs Hall; cbn.
  - repeat constructor.
  - apply StronglySorted_inv in Hs. destruct Hs as [Hl Hy].
    inversion Hall as [|? ? Hyx Hrest]; subst.
    constructor; [now apply IH|].
    apply Forall_app. split; [exact Hy|now constructor].
Qed.

Lemma StronglySorted_rev (R : A -> A -> Prop) l :
  StronglySorted (fun a b => R b a) l -> StronglySorted R (rev l).
Proof.
  induction l as [|x l IH]; intros Hs; cbn; [constructor|].
  apply StronglySorted_inv in Hs. destruct Hs as [Hl Hx].
  apply StronglySorted_snoc; [now apply IH|].
  apply Forall_rev. exact Hx.
Qed.

Lemma sort_sorted array :
  StronglySorted (keyLe key leb) (Js.sort comparefn array).
Proof.
  unfold Js.sort, Js.sortRev.
  apply StronglySorted_rev.
  apply (sortRev_descending array []). constructor.
Qed.

Lemma sort_filter k array :
  filter (keyIs key K_eq_dec k) (Js.sort comparefn array)
  = filter (keyIs key K_eq_dec k) array.
Proof.
  unfold Js.sort, Js.sortRev.
  rewrite filter_rev, sortRev_filter. cbn [filter].
  now rewrite app_nil_r, rev_involutive.
Qed.

(** Under such a comparator the engine's sort is the stable sort by the
    key. *)
Lemma sort_is_stableSortByKey array :
  Js.sort comparefn array = stableSortByKey key leb array.
Proof.
  apply stable_sorted_unique.
  - apply sort_sorted.
  - apply stableSortByKey_sorted.
  - intros k. now rewrite sort_filter, stableSortByKey_filter.
Qed.

End StableSortFacts.

(* ------------------------------------------------------------------ *)
(** ** The target order of the declaration rewrite *)

Module KeyOrder.

Lemma string_leb_refl s : String.leb s s = true.
Proof.
  unfold String.leb.
  pose proof (proj2 (String_as_OT.cmp_eq s s) eq_refl) as Hc.
  unfold String_as_OT.cmp in Hc. now rewrite Hc.
Qed.

Lemma string_leb_cases s1 s2 :
  String.leb s1 s2 = true <-> s1 = s2 \/ String_as_OT.lt s1 s2.
Proof.
  unfold String.leb.
  destruct (String.compare s1 s2) eqn:Hc.
  - apply String_as_OT.cmp_eq in Hc. tauto.
  - apply String_as_OT.cmp_lt in Hc. tauto.
  - split; [discriminate|].
    intros [Heq|Hlt].
    + apply String_as_OT.cmp_eq in Heq. unfold String_as_OT.cmp in Heq.
      congruence.
    + apply String_as_OT.cmp_lt in Hlt. unfold String_as_OT.cmp in Hlt.
      congruence.
Qed.

Lemma string_leb_trans s1 s2 s3 :
  String.leb s1 s2 = true -> String.leb s2 s3 = true ->
  String.leb s1 s3 = true.
Proof.
  rewrite !string_leb_cases.
  intros [->|H12] [->|H23]; auto.
  right. exact (String_as_OT.lt_trans _ _ _ H12 H23).
Qed.

Lemma string_ltb_leb s1 s2 : String.ltb s2 s1 = negb (String.leb s1 s2).
Proof.
  unfold String.ltb, String.leb.
  rewrite (String.compare_antisym s1 s2).
  now destruct (String.compare s2 s1).
Qed.

Lemma compositeLeb_refl k : compositeLeb k k = true.
Proof.
  destruct k as [[e r] m]. cbn.
  rewrite !Bool.eqb_reflx. apply string_leb_refl.
Qed.

Lemma compositeLeb_total k1 k2 :
  compositeLeb k1 k2 = true \/ compositeLeb k2 k1 = true.
Proof.
  destruct k1 as [[[] []] m1], k2 as [[[] []] m2]; cbn; auto;
    apply String.leb_total.
Qed.

Lemma compositeLeb_trans k1 k2 k3 :
  compositeLeb k1 k2 = true -> compositeLeb k2 k3 = true ->
  compositeLeb k1 k3 = true.
Proof.
  destruct k1 as [[[] []] m1], k2 as [[[] []] m2], k3 as [[[] []] m3]; cbn;
    try discriminate; auto; apply string_leb_trans.
Qed.

Lemma compositeLeb_antisym k1 k2 :
  compositeLeb k1 k2 = true -> compositeLeb k2 k1 = true -> k1 = k2.
Proof.
  destruct k1 as [[[] []] m1], k2 as [[[] []] m2]; cbn;
    try discriminate; intros H12 H21;
    now rewrite (String.leb_antisym _ _ H12 H21).
Qed.

End KeyOrder.

Section SortExtensionality.

Context {A : Type}.
Variables comparefn1 comparefn2 : A -> A -> Z.

Lemma insertBack_ext element revPrefix :
  (forall tmp, In tmp revPrefix ->
     (comparefn1 tmp element >? 0)%Z = (comparefn2 tmp element >? 0)%Z) ->
  Js.insertBack comparefn1 element revPrefix
  = Js.insertBack comparefn2 element revPrefix.
Proof.
  induction revPrefix as [|tmp r IH]; intros Hagree; [reflexivity|].
  cbn. rewrite (Hagree tmp) by now left.
  rewrite IH; [reflexivity|].
  intros tmp' Hin. apply Hagree. now right.
Qed.

Lemma fold_insertBack_ext array : forall revPrefix,
  (forall a b, In a (revPrefix ++ array) -> In b (revPrefix ++ array) ->
     (comparefn1 a b >? 0)%Z = (comparefn2 a b >? 0)%Z) ->
  fold_left (fun acc element => Js.insertBack comparefn1 element acc)
            array revPrefix
  = fold_left (fun acc element => Js.insertBack comparefn2 element acc)
              array revPrefix.
Proof.
  induction array as [|x array IH]; intros revPrefix Hagree; [reflexivity|].
  cbn [fold_left].
  rewrite (insertBack_ext x revPrefix).
  - apply IH. intros a b Ha Hb.
    assert (Hmove : forall c,
               In c (Js.insertBack comparefn2 x revPrefix ++ array) ->
               In c (revPrefix ++ x :: array)).
    { intros c Hc. apply in_app_or in Hc. apply in_or_app.
      destruct Hc as [Hc|Hc]; [|right; now right].
      apply (Permutation_in _ (JsFacts.insertBack_perm comparefn2 x revPrefix))
        in Hc.
      destruct Hc as [<-|Hc]; [right; now left|now left]. }
    apply Hagree; now apply Hmove.
  - intros tmp Hin. apply Hagree; apply in_or_app; [now left|right; now left].
Qed.

Lemma sort_ext_in array :
  (forall a b, In a array -> In b array ->
     (comparefn1 a b >? 0)%Z = (comparefn2 a b >? 0)%Z) ->
  Js.sort comparefn1 array = Js.sort comparefn2 array.
Proof.
  intros Hagree. unfold Js.sort, Js.sortRev. f_equal.
  apply fold_insertBack_ext. exact Hagree.
Qed.

End SortExtensionality.

(** Outside the two classes it cannot tell apart, the comparator of the
    rewrite is positive exactly when the first composite key is larger. *)
Lemma compareDefinitions_key prev current :
  emptyRelative prev && nonEmptyAbsolute current = false ->
  emptyRelative current && nonEmptyAbsolute prev = false ->
  (compareDefinitions prev current >? 0)%Z
  = negb (compositeLeb (compositeKey prev) (compositeKey current)).
Proof.
  unfold emptyRelative, nonEmptyAbsolute, compareDefinitions, compositeKey,
    compositeLeb, isEmpty, isAbsoluteImport, moduleIdentifier.
  destruct (String.eqb_spec (getModuleName prev) (getModuleName current))
    as [Heq|Hne].
  - rewrite Heq.
    destruct (isEmptyImport prev), (isEmptyImport current),
      (isAbsolute (getModuleName current)); cbn;
      try discriminate; intros _ _;
      now rewrite ?KeyOrder.string_leb_refl.
  - destruct (isEmptyImport prev), (isEmptyImport current),
      (isAbsolute (getModuleName prev)),
      (isAbsolute (getModuleName current)); cbn;
      try discriminate; intros _ _; try reflexivity;
      rewrite <- KeyOrder.string_ltb_leb;
      now destruct (String.ltb (getModuleName current) (getModuleName prev)).
Qed.

Lemma mixesClasses_false imports a b :
  mixesClasses imports = false ->
  In a imports -> In b imports ->
  emptyRelative a && nonEmptyAbsolute b = false.
Proof.
  unfold mixesClasses. intros Hmix Ha Hb.
  destruct (emptyRelative a) eqn:Ea; [|reflexivity].
  destruct (nonEmptyAbsolute b) eqn:Nb; [|reflexivity].
  assert (H1 : existsb emptyRelative imports = true)
    by (apply existsb_exists; eauto).
  assert (H2 : existsb nonEmptyAbsolute imports = true)
    by (apply existsb_exists; eauto).
  rewrite H1, H2 in Hmix. discriminate.
Qed.

(** The comparator a sort by the composite key would use. *)
Lemma targetOrder_by_key imports :
  mixesClasses imports = false ->
  targetOrder imports
  = Js.sort (fun a b =>
               if compositeLeb (compositeKey a) (compositeKey b)
               then (-1)%Z else 1%Z) imports.
Proof.
  intros Hmix. unfold targetOrder. apply sort_ext_in.
  intros a b Ha Hb.
  rewrite compareDefinitions_key
    by (eapply mixesClasses_false; eassumption).
  now destruct (compositeLeb (compositeKey a) (compositeKey b)).
Qed.

Lemma sorted_emptiesFirst l :
  StronglySorted (keyLe compositeKey compositeLeb) l -> emptiesFirst l = true.
Proof.
  induction l as [|s r IH]; intros Hs; [reflexivity|].
  apply StronglySorted_inv in Hs. destruct Hs as [Hr Hall].
  cbn [emptiesFirst]. rewrite (IH Hr), andb_true_r.
  destruct (isEmpty s) eqn:Es; [reflexivity|]. cbn [orb].
  apply forallb_forall. intros t Ht.
  rewrite Forall_forall in Hall. specialize (Hall t Ht).
  unfold keyLe, compositeKey, compositeLeb in Hall. rewrite Es in Hall.
  destruct (isEmpty t); [|reflexivity].
  cbn in Hall. discriminate.
Qed.

(** C2 (as amended).  On a list that does not hold both an empty relative
    import and a non-empty absolute one, the target order of the rewrite
    is the stable sort of the list by the composite key: a rearrangement
    of the list, ascending in the key, with the statements of each key in
    their original order; and every empty import precedes every
    non-empty one. *)
Theorem C2_target_order_is_stable_sort imports :
  mixesClasses imports = false ->
  targetOrder imports = stableSortByKey compositeKey compositeLeb imports
  /\ Permutation imports (targetOrder imports)
  /\ StronglySorted (keyLe compositeKey compositeLeb) (targetOrder imports)
  /\ (forall k, filter (hasKey k) (targetOrder imports)
                = filter (hasKey k) imports)
  /\ emptiesFirst (targetOrder imports) = true.
Proof.
  intros Hmix.
  pose (byKey := fun a b : ImportDeclaration =>
                   if compositeLeb (compositeKey a) (compositeKey b)
                   then (-1)%Z else 1%Z).
  assert (HbyKey : forall a b,
             (byKey a b >? 0)%Z
             = negb (compositeLeb (compositeKey a) (compositeKey b))).
  { intros a b. unfold byKey.
    now destruct (compositeLeb (compositeKey a) (compositeKey b)). }
  assert (Hsorted : StronglySorted (keyLe compositeKey compositeLeb)
                      (targetOrder imports)).
  { rewrite targetOrder_by_key by assumption.
    apply (sort_sorted compositeKey compositeLeb
             KeyOrder.compositeLeb_total KeyOrder.compositeLeb_trans
             byKey HbyKey). }
  split; [|split; [|split; [|split]]].
  - rewrite targetOrder_by_key by assumption.
    apply (sort_is_stableSortByKey compositeKey compositeLeb
             CompositeKey_eq_dec
             KeyOrder.compositeLeb_refl KeyOrder.compositeLeb_total
             KeyOrder.compositeLeb_trans KeyOrder.compositeLeb_antisym
             byKey HbyKey).
  - apply Permutation_sym, JsFacts.sort_perm.
  - exact Hsorted.
  - intros k. rewrite targetOrder_by_key by assumption.
    apply (sort_filter compositeKey compositeLeb CompositeKey_eq_dec
             KeyOrder.compositeLeb_refl byKey HbyKey).
  - apply sorted_emptiesFirst, Hsorted.
Qed.

Lemma C2_target_order_is_stable_sort_witness :
  targetOrder Samples.twiceImports
  = stableSortByKey compositeKey compositeLeb Samples.twiceImports
  /\ Permutation Samples.twiceImports (targetOrder Samples.twiceImports)
  /\ StronglySorted (keyLe compositeKey compositeLeb)
       (targetOrder Samples.twiceImports)
  /\ (forall k, filter (hasKey k) (targetOrder Samples.twiceImports)
                = filter (hasKey k) Samples.twiceImports)
  /\ emptiesFirst (targetOrder Samples.twiceImports) = true.
Proof.
  apply (C2_target_order_is_stable_sort Samples.twiceImports).
  reflexivity.
Defined.

(** C2 (the claim as stated fails).  For
    [import a from 'a'; import './x'; import b from 'b';] the target
    order is the list itself, with a non-empty import before the empty
    one; the stable sort by the composite key puts the empty import
    first. *)
Lemma C2_counterexample :
  targetOrder Samples.tripleImports = Samples.tripleImports
  /\ targetOrder Samples.tripleImports
     <> stableSortByKey compositeKey compositeLeb Samples.tripleImports
  /\ emptiesFirst (targetOrder Samples.tripleImports) = false.
Proof.
  split; [reflexivity|]. split; [|reflexivity].
  intros Heq. vm_compute in Heq. discriminate.
Qed.

(** On that list the comparator answers [-1] for each two neighbours in
    either direction.  An engine that asks for each element against the
    one before it therefore sees a descending run and returns the list
    reversed, which has a non-empty import first as well, and is accepted
    by the pass as the list itself is. *)
Example triple_outcomes :
  map (fun pc => (compareDefinitions (fst pc) (snd pc),
                  compareDefinitions (snd pc) (fst pc)))
      (adjacentPairs Samples.tripleImports)
  = [((-1)%Z, (-1)%Z); ((-1)%Z, (-1)%Z)]
  /\ emptiesFirst (rev Samples.tripleImports) = false
  /\ rev Samples.tripleImports
     <> stableSortByKey compositeKey compositeLeb Samples.tripleImports
  /\ Program Samples.tripleContext
       (Samples.programOf Samples.tripleImports) = []
  /\ Program Samples.tripleContext
       (Samples.programOf (rev Samples.tripleImports)) = [].
Proof.
  repeat split; try reflexivity.
  intros Heq. vm_compute in Heq. discriminate.
Qed.

(** Whatever the engine, as long as it decides by the outcomes of the
    comparator alone: the two statements [import x from 'pkg';] and
    [import './a';] give the same outcomes in either order, so the engine
    arranges both lists the same way, and one of the two targets has the
    non-empty import first. *)
Lemma any_engine_misplaces_an_empty_import (engine : Engine) :
  (forall f g n, (forall i j, f i j = g i j) -> engine f n = engine g n) ->
  Permutation [0; 1]
    (engine (outcomes compareDefinitions Samples.mixedImports) 2) ->
  emptiesFirst (arrange engine compareDefinitions Samples.mixedImports) = false
  \/ emptiesFirst (arrange engine compareDefinitions Samples.mixedImports')
     = false.
Proof.
  intros Hext Hperm.
  assert (Hsame : engine (outcomes compareDefinitions Samples.mixedImports') 2
                  = engine (outcomes compareDefinitions Samples.mixedImports) 2).
  { apply Hext. intros [|[|[|i]]] [|[|[|j]]]; reflexivity. }
  unfold arrange. change (List.length Samples.mixedImports) with 2.
  change (List.length Samples.mixedImports') with 2. rewrite Hsame.
  apply Permutation_length_2_inv in Hperm.
  destruct Hperm as [-> | ->]; [left|right]; reflexivity.
Qed.

(* ------------------------------------------------------------------ *)
(** ** Re-running the pass on the target order *)

Section SortedNeighbours.

Context {A : Type}.
Variable comparefn : A -> A -> Z.

(** A comparator never puts each of two elements after the other. *)
Hypothesis comparefn_asym :
  forall a b, (comparefn a b >? 0)%Z = true -> (comparefn b a >? 0)%Z = false.







Lemma Sorted_middle (R : A -> A -> Prop) l1 : forall a b l2,
  Sorted R (l1 ++ a :: b :: l2) -> R a b.
Proof.
  induction l1 as [|x l1 IH]; intros a b l2 Hs; cbn in Hs.
  - apply Sorted_inv in Hs. destruct Hs as [_ Hhd]. now inversion Hhd.
  - apply Sorted_inv in Hs. destruct Hs as [Hs _]. now apply IH in Hs.
Qed.

Lemma fold_insertBack_kept array : forall revPrefix,
  Sorted (keptBy comparefn) (rev revPrefix ++ array) ->
  fold_left (fun acc element => Js.insertBack comparefn element acc)
            array revPrefix
  = (rev array ++ revPrefix)%list.
Proof.
  induction array as [|x array IH]; intros revPrefix Hs; [reflexivity|].
  cbn [fold_left].
  assert (Hins : Js.insertBack comparefn x revPrefix = x :: revPrefix).
  { destruct revPrefix as [|tmp r]; [reflexivity|].
    cbn [rev] in Hs. rewrite <- app_assoc in Hs. cbn [app] in Hs.
    apply Sorted_middle in Hs. cbn. unfold keptBy in Hs. now rewrite Hs. }
  rewrite Hins, IH.
  - cbn [rev]. now rewrite <- app_assoc.
  - cbn [rev]. now rewrite <- app_assoc.
Qed.

(** Sorting such a list again changes nothing. *)
Lemma sort_kept array :
  Sorted (keptBy comparefn) array -> Js.sort comparefn array = array.
Proof.
  intros Hs. unfold Js.sort, Js.sortRev.
  rewrite (fold_insertBack_kept array []) by exact Hs.
  now rewrite app_nil_r, rev_involutive.
Qed.


End SortedNeighbours.








Section Reanalysis.

Variable context : Context.
Variable node : ProgramNode.
Variable imports : list ImportDeclaration.



End Reanalysis.



(* ------------------------------------------------------------------ *)
(** ** The text after a rewrite *)

Module TrimFacts.

Lemma trimStart_length s : String.length (Js.trimStart s) <= String.length s.
Proof.
  induction s as [|c s IH]; cbn; [lia|].
  destruct (Js.isWhiteSpace c); cbn; lia.
Qed.

Lemma solid_inv s :
  isSolid s = true ->
  s <> "" /\ Js.trimStart s = s /\ Js.trimEnd s = s.
Proof.
  unfold isSolid. intros H.
  apply andb_true_iff in H. destruct H as [H Hend].
  apply andb_true_iff in H. destruct H as [Hne Hstart].
  apply String.eqb_eq in Hend, Hstart.
  apply negb_true_iff, String.eqb_neq in Hne. auto.
Qed.

Lemma solid_head s :
  isSolid s = true ->
  exists c r, s = String c r /\ Js.isWhiteSpace c = false.
Proof.
  intros H. destruct (solid_inv s H) as [Hne [Hstart _]].
  destruct s as [|c r]; [contradiction|].
  exists c, r. split; [reflexivity|].
  cbn in Hstart. destruct (Js.isWhiteSpace c); [|reflexivity].
  pose proof (trimStart_length r) as Hlen.
  rewrite Hstart in Hlen. cbn in Hlen. lia.
Qed.

Lemma trimStart_gap gap text rest :
  isSolid text = true ->
  Js.trimStart (gap ++ text ++ rest) = Js.trimStart gap ++ text ++ rest.
Proof.
  intros H. destruct (solid_head text H) as [c [r [-> Hc]]].
  induction gap as [|g gap IH]; cbn.
  - now rewrite Hc.
  - destruct (Js.isWhiteSpace g); [exact IH|reflexivity].
Qed.

Lemma trimEnd_append s t :
  Js.trimEnd t <> "" -> Js.trimEnd (s ++ t) = s ++ Js.trimEnd t.
Proof.
  intros Hne. induction s as [|c s IH]; [reflexivity|].
  cbn. rewrite IH.
  destruct (s ++ Js.trimEnd t) eqn:Happ; [|reflexivity].
  destruct s; cbn in Happ; [contradiction|discriminate].
Qed.

Lemma trimEnd_segments (segs : list (string * string)) :
  segs <> [] ->
  Forall (fun segment => isSolid (snd segment) = true) segs ->
  Js.trimEnd (joinSegments segs) = joinSegments segs
  /\ joinSegments segs <> "".
Proof.
  induction segs as [|[gap text] segs IH]; intros Hne Hall; [contradiction|].
  inversion Hall as [|? ? Htext Hrest]; subst. cbn [snd] in Htext.
  destruct (solid_inv text Htext) as [Hnonempty [_ Hend]].
  rewrite joinSegments_cons. cbn [fst snd].
  destruct segs as [|segment segs].
  - cbn. rewrite JsFacts.append_nil_r.
    split.
    + rewrite trimEnd_append by (rewrite Hend; exact Hnonempty).
      now rewrite Hend.
    + destruct gap; cbn; [exact Hnonempty|discriminate].
  - destruct (IH ltac:(discriminate) Hrest) as [IHend IHne].
    rewrite <- JsFacts.append_assoc.
    split.
    + rewrite trimEnd_append by (rewrite IHend; exact IHne).
      now rewrite IHend.
    + intros Heq.
      destruct (gap ++ text) eqn:Hgt.
      * destruct gap; cbn in Hgt; [contradiction|discriminate].
      * discriminate.
Qed.

(** Trimming the joined segments of solid texts removes the white space
    in front of the first gap and nothing else. *)
Lemma trim_segments (segs : list (string * string)) :
  Forall (fun segment => isSolid (snd segment) = true) segs ->
  Js.trim (joinSegments segs) = joinSegments (trimmedSegments segs).
Proof.
  intros Hall. destruct segs as [|[gap text] segs]; [reflexivity|].
  unfold Js.trim. cbn [trimmedSegments].
  rewrite !joinSegments_cons. cbn [fst snd].
  inversion Hall as [|? ? Htext Hrest]; subst. cbn [snd] in Htext.
  rewrite trimStart_gap by assumption.
  pose proof (trimEnd_segments ((Js.trimStart gap, text) :: segs)
                ltac:(discriminate)) as Hend.
  rewrite joinSegments_cons in Hend. cbn [fst snd] in Hend.
  apply Hend. constructor; assumption.
Qed.

Lemma slice_middle (before text after : string) :
  Js.slice (before ++ text ++ after) (String.length before)
    (String.length before + String.length text) = text.
Proof.
  unfold Js.slice.
  replace (String.length before + String.length text - String.length before)
    with (String.length text) by lia.
  induction before as [|c before IH]; cbn [append String.length].
  - rewrite TextFacts.substring_append_left by (cbn; lia).
    apply TextFacts.substring_all.
  - cbn [substring]. exact IH.
Qed.

Lemma length_slice_prefix s p :
  p <= String.length s -> String.length (Js.slice s 0 p) = p.
Proof.
  intros Hp. unfold Js.slice. rewrite Nat.sub_0_r.
  now apply TextFacts.length_prefix.
Qed.

Lemma layout_slices (segs : list (string * string)) : forall before after,
  Forall2 (fun segment r =>
             Js.slice (before ++ joinSegments segs ++ after) (fst r) (snd r)
             = snd segment)
          segs (layout (String.length before) segs).
Proof.
  induction segs as [|[gap text] segs IH]; intros before after;
    [constructor|].
  cbn [layout]. rewrite joinSegments_cons. cbn [fst snd].
  constructor.
  - cbn [fst snd].
    replace (before ++ (gap ++ text ++ joinSegments segs) ++ after)
      with ((before ++ gap) ++ text ++ (joinSegments segs ++ after))
      by now rewrite !JsFacts.append_assoc.
    rewrite <- JsFacts.length_append. apply slice_middle.
  - replace (before ++ (gap ++ text ++ joinSegments segs) ++ after)
      with ((before ++ gap ++ text) ++ joinSegments segs ++ after)
      by now rewrite !JsFacts.append_assoc.
    replace (String.length before + String.length gap + String.length text)
      with (String.length (before ++ gap ++ text))
      by (rewrite !JsFacts.length_append; lia).
    apply IH.
Qed.

Lemma layout_inSequence (segs : list (string * string)) : forall pos,
  Forall (fun segment => isSolid (snd segment) = true) segs ->
  inSequence pos (layout pos segs).
Proof.
  induction segs as [|[gap text] segs IH]; intros pos Hall; [exact I|].
  inversion Hall as [|? ? Htext Hrest]; subst. cbn [snd] in Htext.
  destruct (solid_head text Htext) as [c [r [-> _]]].
  cbn [layout inSequence]. repeat split.
  - lia.
  - cbn [String.length]. lia.
  - apply IH. exact Hrest.
Qed.

End TrimFacts.

Section RewrittenText.

Variable context : Context.
Context {A : Type} `{Node A}.

Lemma segments_solid original sorted : forall index,
  forallb (fun n => isSolid (getText context n)) sorted = true ->
  Forall (fun segment => isSolid (snd segment) = true)
         (segments context original sorted index).
Proof.
  induction sorted as [|n sorted IH]; intros index Hall; [constructor|].
  cbn in Hall. apply andb_true_iff in Hall. destruct Hall as [Hn Hrest].
  cbn [segments]. constructor; [exact Hn|now apply IH].
Qed.

Lemma trimmedSegments_texts (segs : list (string * string)) :
  map snd (trimmedSegments segs) = map snd segs.
Proof. destruct segs as [|[gap text] segs]; reflexivity. Qed.

Lemma trimmedSegments_solid (segs : list (string * string)) :
  Forall (fun segment => isSolid (snd segment) = true) segs ->
  Forall (fun segment => isSolid (snd segment) = true) (trimmedSegments segs).
Proof.
  destruct segs as [|[gap text] segs]; [trivial|].
  intros Hall. inversion Hall; subst. now constructor.
Qed.

Lemma Forall2_texts (segs : list (string * string)) (sorted : list A)
  (P : string -> Range -> Prop) ranges :
  map snd segs = map (getText context) sorted ->
  Forall2 (fun segment r => P (snd segment) r) segs ranges ->
  Forall2 (fun n r => P (getText context n) r) sorted ranges.
Proof.
  revert sorted ranges.
  induction segs as [|segment segs IH]; intros [|n sorted] ranges Hmap Hall;
    try discriminate; inversion Hall; subst; constructor.
  - cbn in Hmap. injection Hmap as Hn _. now rewrite <- Hn.
  - apply IH; [|assumption]. cbn in Hmap. now injection Hmap.
Qed.

(** The text after a rewrite into the order [sorted]: what came before
    the replaced range, the segments of [sorted] with the white space in
    front of the first gap removed, and what came after the range.  The
    raw texts of the nodes lie in it in the order of [sorted], one after
    the other. *)
Lemma rewritten_text original sorted edit (range : Range) :
  Forall (fun n => In n original) sorted ->
  forallb (fun n => isSolid (getText context n)) sorted = true ->
  fst range <= String.length (sourceText context) ->
  edit = {| fix_range := range;
            fix_text :=
              Js.trim (joinSegments (segments context original sorted 0)) |} ->
  let written := trimmedSegments (segments context original sorted 0) in
  applyFix (sourceText context) edit
  = Js.slice (sourceText context) 0 (fst range)
    ++ joinSegments written
    ++ Js.sliceFrom (sourceText context) (snd range)
  /\ Forall2 (fun n r =>
                Js.slice (applyFix (sourceText context) edit) (fst r) (snd r)
                = getText context n)
             sorted (layout (fst range) written)
  /\ inSequence (fst range) (layout (fst range) written).
Proof.
  intros Hin Hsolid Hstart -> written.
  pose proof (segments_solid original sorted 0 Hsolid) as Hsegs.
  assert (Htext : applyFix (sourceText context)
                    {| fix_range := range;
                       fix_text :=
                         Js.trim
                           (joinSegments (segments context original sorted 0)) |}
                  = Js.slice (sourceText context) 0 (fst range)
                    ++ joinSegments written
                    ++ Js.sliceFrom (sourceText context) (snd range)).
  { unfold applyFix. cbn [fix_range fix_text].
    now rewrite TrimFacts.trim_segments. }
  split; [exact Htext|]. split.
  - rewrite Htext.
    apply (Forall2_texts written sorted
             (fun text r =>
                Js.slice
                  (Js.slice (sourceText context) 0 (fst range)
                   ++ joinSegments written
                   ++ Js.sliceFrom (sourceText context) (snd range))
                  (fst r) (snd r) = text)).
    + unfold written. now rewrite trimmedSegments_texts, segments_texts.
    + pose proof (TrimFacts.layout_slices written
                    (Js.slice (sourceText context) 0 (fst range))
                    (Js.sliceFrom (sourceText context) (snd range))) as Hl.
      rewrite TrimFacts.length_slice_prefix in Hl by assumption.
      exact Hl.
  - apply TrimFacts.layout_inSequence, trimmedSegments_solid, Hsegs.
Qed.

End RewrittenText.

Lemma existsb_perm {A} (p : A -> bool) (l1 l2 : list A) :
  Permutation l1 l2 -> existsb p l1 = existsb p l2.
Proof.
  induction 1 as [|x l1 l2 _ IH|x y l|l1 l2 l3 _ IH1 _ IH2]; cbn.
  - reflexivity.
  - now rewrite IH.
  - now destruct (p x), (p y).
  - now rewrite IH1.
Qed.

Lemma mixesClasses_perm l1 l2 :
  Permutation l1 l2 -> mixesClasses l1 = mixesClasses l2.
Proof.
  intros Hperm. unfold mixesClasses.
  now rewrite (existsb_perm emptyRelative l1 l2 Hperm),
    (existsb_perm nonEmptyAbsolute l1 l2 Hperm).
Qed.

(** On a list that does not mix the two classes the comparator is a
    consistent order, and the target order is the stable sort by the
    composite key, whatever engine sorts. *)
Lemma targetOrder_stable imports :
  mixesClasses imports = false ->
  targetOrder imports = stableSortByKey compositeKey compositeLeb imports.
Proof.
  intros Hmix. rewrite targetOrder_by_key by assumption.
  apply (sort_is_stableSortByKey compositeKey compositeLeb
           CompositeKey_eq_dec
           KeyOrder.compositeLeb_refl KeyOrder.compositeLeb_total
           KeyOrder.compositeLeb_trans KeyOrder.compositeLeb_antisym).
  intros a b. now destruct (compositeLeb (compositeKey a) (compositeKey b)).
Qed.



(** The module of the witness after its rewrite: the text is
    [import './a';], a line break, [import './b';]; its parse has the two
    statements at the places the rewrite gives, and the pass accepts
    it. *)
Example swapped_reparse :
  option_map (applyFix Samples.swappedText)
    (fixImportDefinitions Samples.swappedContext Samples.swappedImports
       hostFixer)
  = Some (getSourceCode Samples.swappedRewrittenContext)
  /\ Forall2 sameStatement
       (stableSortByKey compositeKey compositeLeb Samples.swappedImports)
       Samples.swappedRewrittenImports
  /\ map decl_range Samples.swappedRewrittenImports
     = layout 0
         (trimmedSegments
            (segments Samples.swappedContext Samples.swappedImports
               (stableSortByKey compositeKey compositeLeb
                  Samples.swappedImports) 0))
  /\ Program Samples.swappedRewrittenContext
       (Samples.programOf Samples.swappedRewrittenImports) = [].
Proof.
  split; [reflexivity|]. split; [|split; reflexivity].
  repeat constructor.
Qed.


(* ------------------------------------------------------------------ *)
(** ** The scenarios of the specification, run on the embedding *)

Example scenario_alphabetical :
  map message
    (Program Samples.swappedContext (Samples.programOf Samples.swappedImports))
  = [AlphabeticalOutOfOrder]
  /\ option_map (applyFix Samples.swappedText)
       (fixImportDefinitions Samples.swappedContext Samples.swappedImports
          hostFixer)
     = Some ("import './a';" ++ lineBreak ++ "import './b';").
Proof. split; reflexivity. Qed.

Example scenario_absolute :
  map message
    (Program Samples.relativeFirstContext
       (Samples.programOf Samples.relativeFirstImports))
  = [AbsoluteImportOutOfOrder]
  /\ option_map (applyFix Samples.relativeFirstText)
       (fixImportDefinitions Samples.relativeFirstContext
          Samples.relativeFirstImports hostFixer)
     = Some ("import 'pkg';" ++ lineBreak ++ "import './x';").
Proof. split; reflexivity. Qed.

Example scenario_duplicate :
  map (fun r => (message r, match fix_ r with Some _ => true | None => false end))
    (Program Samples.repeatedContext
       (Samples.programOf Samples.repeatedImports))
  = [(DuplicateModule, false)].
Proof. reflexivity. Qed.

Example scenario_comment_travels :
  option_map (applyFix Samples.commentedText)
    (fixImportDefinitions Samples.commentedContext Samples.commentedImports
       hostFixer)
  = Some ("/* b */ import './a';" ++ lineBreak ++ "import './b';").
Proof. reflexivity. Qed.

(* ------------------------------------------------------------------ *)
(** ** Further properties of the pass *)

Section PassFacts.

Variable context : Context.
Variable program : ProgramNode.

Lemma adjacentPairs_length {A} (l : list A) :
  List.length (adjacentPairs l) = List.length l - 1.
Proof.
  induction l as [|a l IH]; [reflexivity|].
  destruct l as [|b l]; [reflexivity|].
  change (adjacentPairs (a :: b :: l)) with ((a, b) :: adjacentPairs (b :: l)).
  cbn [List.length] in *. lia.
Qed.

Lemma flat_map_length_le {A B} (f : A -> list B) (l : list A) (bound : nat) :
  (forall x, List.length (f x) <= bound) ->
  List.length (flat_map f l) <= List.length l * bound.
Proof.
  intros Hf. induction l as [|x l IH]; [cbn; lia|].
  cbn [flat_map List.length]. rewrite length_app.
  specialize (Hf x). lia.
Qed.

Lemma members_pass_silent imports :
  (if sortMembers context
   then Js.forEach (fun declaration _ _ => checkMembers context declaration)
                   imports
   else []) = [].
Proof.
  destruct (sortMembers context); [|reflexivity].
  unfold Js.forEach. generalize 0 at 1. generalize imports at 1.
  induction imports as [|d l IH]; intros array i; [reflexivity|].
  cbn [Js.forEach_from]. rewrite checkMembers_silent. apply IH.
Qed.

Lemma Program_by_pairs :
  Program context program
  = flat_map (fun pc =>
                pairReports context program (importDeclarations (body program))
                  (fst pc) (snd pc))
      (adjacentPairs (importDeclarations (body program))).
Proof.
  unfold Program. rewrite members_pass_silent. cbn [app].
  apply forEach_checkDeclaration.
Qed.

(** What a report on a pair can be. *)
Lemma pairReports_inv imports prev current r :
  In r (pairReports context program imports prev current) ->
  node r = OnProgram program
  /\ ((message r = DuplicateModule
       /\ fix_ r = None
       /\ getModuleName prev = getModuleName current
       /\ data r = [("currentName", getModuleName current)])
      \/ (message r <> DuplicateModule
          /\ message r <> UnsortedBinding
          /\ fix_ r = Some (fixImportDefinitions context imports)
          /\ getModuleName prev <> getModuleName current
          /\ (compareDefinitions prev current >? 0)%Z = true
          /\ data r = [("currentName", getModuleName current);
                       ("prevName", getModuleName prev)])).
Proof.
  unfold pairReports, checkDeclaration, compareDefinitions.
  cbn [Nat.eqb Z.of_nat]. cbn [Js.at_ Z.ltb Z.compare Z.sub Z.add Z.opp
    Z.pos_sub Pos.of_succ_nat Z.to_nat nth_error].
  destruct (String.eqb_spec (getModuleName prev) (getModuleName current))
    as [Heq|Hne].
  { intros [<-|[]]. split; [reflexivity|]. left. now repeat split. }
  destruct (isEmptyImport prev), (isEmptyImport current),
    (isAbsolute (getModuleName prev)), (isAbsolute (getModuleName current));
    cbn [andb orb negb]; try contradiction;
    try (intros [<-|[]]; split; [reflexivity|]; right;
         repeat split; solve [discriminate | assumption | reflexivity]);
    (destruct (String.ltb (getModuleName current) (getModuleName prev));
     [|contradiction];
     intros [<-|[]]; split; [reflexivity|]; right;
     repeat split; solve [discriminate | assumption | reflexivity]).
Qed.

(** Where the comparator puts [current] first, the pair is reported. *)
Lemma pairReports_out_of_order imports prev current :
  (compareDefinitions prev current >? 0)%Z = true ->
  exists r, In r (pairReports context program imports prev current)
            /\ (getModuleName prev <> getModuleName current ->
                fix_ r = Some (fixImportDefinitions context imports)).
Proof.
  unfold pairReports, checkDeclaration, compareDefinitions.
  cbn [Nat.eqb Z.of_nat]. cbn [Js.at_ Z.ltb Z.compare Z.sub Z.add Z.opp
    Z.pos_sub Pos.of_succ_nat Z.to_nat nth_error].
  destruct (String.eqb_spec (getModuleName prev) (getModuleName current))
    as [Heq|Hne].
  { intros _. eexists. split; [now left|]. intros Hne. contradiction. }
  destruct (isEmptyImport prev), (isEmptyImport current),
    (isAbsolute (getModuleName prev)), (isAbsolute (getModuleName current));
    cbn [andb orb negb]; try discriminate;
    try (intros _; eexists; split; [now left|reflexivity]);
    (destruct (String.ltb (getModuleName current) (getModuleName prev));
     [|discriminate];
     intros _; eexists; split; [now left|reflexivity]).
Qed.

End PassFacts.

(** X1.  The pass never reports an unsorted binding, and what it shows to
    the user (place, message and names of every report) is the same
    under every configuration and for every source text: the options
    [sortMembers] and [caseSensitive] change nothing. *)
Theorem Program_ignores_options context context' node :
  map diagnostic (Program context node) = map diagnostic (Program context' node)
  /\ forall r, In r (Program context node) -> message r <> UnsortedBinding.
Proof.
  split.
  - rewrite !Program_by_pairs.
    induction (adjacentPairs (importDeclarations (body node)))
      as [|[prev current] pairs IH]; [reflexivity|].
    cbn [flat_map fst snd]. rewrite !map_app, IH. f_equal.
    unfold pairReports, checkDeclaration.
    cbn [Nat.eqb Z.of_nat]. cbn [Js.at_ Z.ltb Z.compare Z.sub Z.add Z.opp
      Z.pos_sub Pos.of_succ_nat Z.to_nat nth_error].
    repeat match goal with
           | |- context [if ?c then _ else _] => destruct c
           end; reflexivity.
  - intros r Hin Hmessage. rewrite Program_by_pairs in Hin.
    apply in_flat_map in Hin. destruct Hin as [[prev current] [_ Hr]].
    destruct (pairReports_inv context node _ _ _ r Hr)
      as [_ [[Hd _]|[_ [Hu _]]]]; congruence.
Qed.

(** X2.  A pass makes at most one report for each import declaration
    after the first: none at all on a body with no import or with one. *)
Theorem Program_report_count context node :
  List.length (Program context node)
  <= List.length (importDeclarations (body node)) - 1.
Proof.
  rewrite Program_by_pairs.
  rewrite <- adjacentPairs_length, <- (Nat.mul_1_r (List.length (adjacentPairs _))).
  apply flat_map_length_le. intros [prev current].
  apply pairReports_length.
Qed.

(** X3.  The messages of a pass are the verdicts of the decision
    sequence on the adjacent pairs of import declarations, pair by pair
    in source order; statements that are not imports play no part. *)
Theorem Program_messages_by_pair context node :
  exists verdicts,
    Forall2 (fun pc verdict => Decision (fst pc) (snd pc) verdict)
            (adjacentPairs (importDeclarations (body node))) verdicts
    /\ map message (Program context node)
       = flat_map verdictMessages verdicts.
Proof.
  rewrite Program_by_pairs.
  induction (adjacentPairs (importDeclarations (body node)))
    as [|[prev current] pairs [verdicts [Hall Hmsg]]].
  - exists []. split; [constructor|reflexivity].
  - destruct (pairReports_decision context node
                (importDeclarations (body node)) prev current)
      as [verdict [Hdecision Hverdict]].
    exists (verdict :: verdicts). split; [now constructor|].
    cbn [flat_map fst snd]. now rewrite map_app, Hverdict, Hmsg.
Qed.

(** X4.  Every report of a pass is placed on the program node, not on the
    import declaration it is about, and every fix a report carries is the
    same closure: the rewrite of the whole block of imports. *)
Theorem Program_reports_on_program context program r :
  In r (Program context program) ->
  node r = OnProgram program
  /\ (fix_ r = None
      \/ fix_ r = Some (fixImportDefinitions context
                          (importDeclarations (body program)))).
Proof.
  intros Hin. rewrite Program_by_pairs in Hin.
  apply in_flat_map in Hin. destruct Hin as [[prev current] [_ Hr]].
  destruct (pairReports_inv context program _ _ _ r Hr)
    as [Hnode [[_ [Hfix _]]|[_ [_ [Hfix _]]]]]; auto.
Qed.

(** X5.  The checker and the rewrite agree: a pair of neighbours gets a
    report that carries a fix exactly when the two import different
    modules and the comparator of the rewrite puts the second before the
    first. *)
Theorem fix_offered_iff_comparator_positive context node imports prev current :
  (exists r, In r (pairReports context node imports prev current)
             /\ carriesFix r = true)
  <-> getModuleName prev <> getModuleName current
      /\ (compareDefinitions prev current >? 0)%Z = true.
Proof.
  split.
  - intros [r [Hr Hfix]].
    destruct (pairReports_inv context node _ _ _ r Hr)
      as [_ [[_ [Hnone _]]|[_ [_ [_ [Hne [Hcmp _]]]]]]].
    + unfold carriesFix in Hfix. rewrite Hnone in Hfix. discriminate.
    + now split.
  - intros [Hne Hcmp].
    destruct (pairReports_out_of_order context node imports prev current Hcmp)
      as [r [Hr Hfix]].
    exists r. split; [exact Hr|].
    unfold carriesFix. now rewrite (Hfix Hne).
Qed.

Lemma Program_reports_on_program_witness :
  node Samples.swappedReport
  = OnProgram (Samples.programOf Samples.swappedImports)
  /\ (fix_ Samples.swappedReport = None
      \/ fix_ Samples.swappedReport
         = Some (fixImportDefinitions Samples.swappedContext
                   (importDeclarations
                      (body (Samples.programOf Samples.swappedImports))))).
Proof.
  apply (Program_reports_on_program Samples.swappedContext
           (Samples.programOf Samples.swappedImports)).
  left. reflexivity.
Defined.

(* ------------------------------------------------------------------ *)
(** ** The comparator of the declaration rewrite *)

Lemma string_order_cases s1 s2 :
  s1 <> s2 ->
  (String.ltb s1 s2 = true /\ String.ltb s2 s1 = false)
  \/ (String.ltb s1 s2 = false /\ String.ltb s2 s1 = true).
Proof.
  intros Hne. unfold String.ltb.
  rewrite (String.compare_antisym s1 s2).
  destruct (String.compare s2 s1) eqn:Hc; cbn; auto.
  apply String.compare_eq_iff in Hc. now contradiction Hne.
Qed.

(** X6.  The comparator answers -1, 0 or 1.  It answers 0 exactly for two
    statements of the same module that are both empty or both not.  It
    is antisymmetric, one answer the opposite of the other, on every pair
    but those of an empty relative and a non-empty absolute import, for
    which it answers -1 both ways. *)
Theorem compareDefinitions_answers a b :
  (compareDefinitions a b = (-1)%Z \/ compareDefinitions a b = 0%Z
   \/ compareDefinitions a b = 1%Z)
  /\ (compareDefinitions a b = 0%Z
      <-> getModuleName a = getModuleName b
          /\ isEmptyImport a = isEmptyImport b)
  /\ (if mixedPair a b
      then compareDefinitions a b = (-1)%Z /\ compareDefinitions b a = (-1)%Z
      else compareDefinitions b a = (- compareDefinitions a b)%Z).
Proof.
  unfold compareDefinitions, mixedPair, emptyRelative, nonEmptyAbsolute,
    isEmpty, isAbsoluteImport.
  rewrite (String.eqb_sym (getModuleName b) (getModuleName a)).
  destruct (String.eqb_spec (getModuleName a) (getModuleName b)) as [Heq|Hne].
  - rewrite <- Heq.
    destruct (isEmptyImport a), (isEmptyImport b),
      (isAbsolute (getModuleName a)); cbn;
      repeat split; auto; try discriminate; intros [_ ?]; discriminate.
  - destruct (string_order_cases _ _ Hne) as [[-> ->]|[-> ->]];
      destruct (isEmptyImport a), (isEmptyImport b),
        (isAbsolute (getModuleName a)), (isAbsolute (getModuleName b)); cbn;
      repeat split; auto; try discriminate; intros [? _]; contradiction.
Qed.

(* ------------------------------------------------------------------ *)
(** ** Accepted lists and the rewrite *)

Lemma adjacentPairs_Sorted {A} (R : A -> A -> Prop) (l : list A) :
  (forall p c, In (p, c) (adjacentPairs l) -> R p c) -> Sorted R l.
Proof.
  induction l as [|a l IH]; intros Hpairs; [constructor|].
  destruct l as [|b l]; [repeat constructor|].
  constructor.
  - apply IH. intros p c Hin. apply Hpairs. now right.
  - constructor. apply Hpairs. now left.
Qed.

Lemma accepted_kept context program :
  Program context program = [] ->
  Sorted keptInOrder (importDeclarations (body program)).
Proof.
  intros Hnil. apply adjacentPairs_Sorted. intros prev current Hin.
  pose proof (Program_accepts_pairs context program prev current Hnil Hin)
    as Hpair.
  unfold keptInOrder, keptBy.
  destruct (compareDefinitions prev current >? 0)%Z eqn:Hcmp; [|reflexivity].
  destruct (pairReports_out_of_order context program
              (importDeclarations (body program)) prev current Hcmp)
    as [r [Hr _]].
  rewrite Hpair in Hr. contradiction.
Qed.

Lemma accepted_is_sorted context program :
  Program context program = [] ->
  mixesClasses (importDeclarations (body program)) = false ->
  stableSortByKey compositeKey compositeLeb (importDeclarations (body program))
  = importDeclarations (body program)
  /\ targetOrder (importDeclarations (body program))
     = importDeclarations (body program).
Proof.
  intros Hnil Hmix.
  assert (Hkept : targetOrder (importDeclarations (body program))
                  = importDeclarations (body program)).
  { apply (sort_kept compareDefinitions).
    exact (accepted_kept context program Hnil). }
  split; [|exact Hkept].
  now rewrite <- (targetOrder_stable _ Hmix).
Qed.

(** X7.  On a list the pass accepts that does not hold both an empty
    relative import and a non-empty absolute one, the rewrite has nothing
    to move: the list is its own stable sort by the composite key, which
    is the target order. *)
Theorem accepted_is_target_order context program :
  Program context program = [] ->
  mixesClasses (importDeclarations (body program)) = false ->
  stableSortByKey compositeKey compositeLeb (importDeclarations (body program))
  = importDeclarations (body program)
  /\ targetOrder (importDeclarations (body program))
     = importDeclarations (body program).
Proof.
  exact (accepted_is_sorted context program).
Qed.

Lemma accepted_is_target_order_witness :
  stableSortByKey compositeKey compositeLeb
    (importDeclarations (body (Samples.programOf Samples.twiceImports)))
  = importDeclarations (body (Samples.programOf Samples.twiceImports))
  /\ targetOrder
       (importDeclarations (body (Samples.programOf Samples.twiceImports)))
     = importDeclarations (body (Samples.programOf Samples.twiceImports)).
Proof.
  apply (accepted_is_target_order Samples.twiceContext
           (Samples.programOf Samples.twiceImports)).
  - reflexivity.
  - reflexivity.
Defined.

(* ------------------------------------------------------------------ *)
(** ** The range and the text of a rewrite *)

Section LaidOutFacts.

Context {A : Type} `{Node A}.

Lemma laidOut_ends (l : list A) : forall pos x,
  laidOut pos (x :: l) ->
  forall d, In d (x :: l) ->
            fst (range d) < snd (range d)
            /\ snd (range d) <= snd (range (List.last l x)).
Proof.
  induction l as [|y l IH]; intros pos x Hl d Hd.
  - destruct Hd as [<-|[]]. cbn in *. lia.
  - destruct Hl as [Hpos [Hlen Hrest]].
    rewrite (last_cons l y x).
    pose proof (IH _ y Hrest) as IHy.
    destruct Hd as [<-|Hd].
    + split; [exact Hlen|].
      destruct (IHy y (or_introl eq_refl)) as [Hy Hlast].
      destruct Hrest as [Hstart _]. lia.
    + exact (IHy d Hd).
Qed.

(** The nodes of a laid out sequence lie between the start of its first
    node and the end of its last. *)
Lemma laidOut_within (l : list A) firstNode lastNode :
  laidOut 0 l ->
  first l = Some firstNode ->
  last l = Some lastNode ->
  forall d, In d l ->
            fst (range firstNode) <= fst (range d)
            /\ fst (range d) < snd (range d)
            /\ snd (range d) <= snd (range lastNode).
Proof.
  intros Hl Hfirst Hlast d Hd.
  destruct l as [|x l]; [contradiction|].
  rewrite JsFacts.first_cons in Hfirst. injection Hfirst as <-.
  rewrite last_is_last in Hlast. injection Hlast as <-.
  destruct (laidOut_ends l 0 x Hl d Hd) as [Hlen Hend].
  split; [|now split].
  destruct Hd as [<-|Hd]; [lia|].
  destruct Hl as [_ [Hx Hrest]].
  pose proof (laidOut_starts l _ Hrest) as Hstarts.
  rewrite Forall_forall in Hstarts. specialize (Hstarts d Hd). lia.
Qed.

End LaidOutFacts.

Lemma fixImportDefinitions_range context imports fixer edit :
  fixImportDefinitions context imports fixer = Some edit ->
  exists firstNode lastNode text,
    first imports = Some firstNode
    /\ last imports = Some lastNode
    /\ sortNodes context imports (targetOrder imports) = Some text
    /\ edit = replaceTextRange fixer
                (fst (range firstNode), snd (range lastNode)) (Js.trim text).
Proof.
  unfold fixImportDefinitions, targetOrder.
  destruct (first imports) as [f|]; [|discriminate].
  destruct (last imports) as [l|]; [|discriminate].
  destruct (sortNodes context imports _) as [text|]; [|discriminate].
  intros [= <-]. exists f, l, text. repeat split.
Qed.

(** X8.  The rewrite of the declarations replaces the range from the
    start of the first import to the end of the last, and every import
    of a laid out list lies within it. *)
Theorem fixImportDefinitions_covers context imports edit :
  laidOut 0 imports ->
  fixImportDefinitions context imports hostFixer = Some edit ->
  forall d, In d imports ->
            fst (fix_range edit) <= fst (range d)
            /\ snd (range d) <= snd (fix_range edit).
Proof.
  intros Hl Hfix d Hd.
  destruct (fixImportDefinitions_range context imports hostFixer edit Hfix)
    as [f [l [text [Hf [Hlast [_ ->]]]]]].
  cbn [hostFixer replaceTextRange fix_range fst snd].
  destruct (laidOut_within imports f l Hl Hf Hlast d Hd) as [H1 [_ H2]].
  now split.
Qed.

Lemma fixImportDefinitions_covers_witness :
  fst (fix_range Samples.commentedEdit)
  <= fst (range (Samples.declaration "./a" [] 22 35))
  /\ snd (range (Samples.declaration "./a" [] 22 35))
     <= snd (fix_range Samples.commentedEdit).
Proof.
  assert (Hlayout : laidOut 0 Samples.commentedImports)
    by (vm_compute; lia).
  exact (fixImportDefinitions_covers Samples.commentedContext
           Samples.commentedImports Samples.commentedEdit Hlayout eq_refl
           (Samples.declaration "./a" [] 22 35)
           (or_intror (or_introl eq_refl))).
Defined.

Lemma whole_text text start stop :
  start <= stop -> stop <= String.length text ->
  Js.slice text 0 start ++ Js.slice text start stop ++ Js.sliceFrom text stop
  = text.
Proof.
  intros Hss Hlen.
  rewrite <- JsFacts.append_assoc, JsFacts.slice_glue by lia.
  unfold Js.slice, Js.sliceFrom. rewrite Nat.sub_0_r.
  pose proof (JsFacts.substring_glue text 0 stop (String.length text - stop))
    as Hglue.
  cbn [Nat.add] in Hglue. rewrite Hglue.
  replace (stop + (String.length text - stop)) with (String.length text)
    by lia.
  apply TextFacts.substring_all.
Qed.

Lemma identity_segments_trimmed context {A : Type} `{Node A}
  (original : list A) :
  trimmedSegments (segments context original original 0)
  = segments context original original 0.
Proof.
  destruct original as [|o rest]; [reflexivity|].
  cbn [segments trimmedSegments]. unfold gapBefore.
  rewrite same_refl. reflexivity.
Qed.

(** X9.  Applied to a list the pass accepts, laid out in the source and
    not holding both an empty relative import and a non-empty absolute
    one, the rewrite of the declarations gives the source back, character
    for character. *)
Theorem accepted_rewrite_changes_nothing context program :
  let imports := importDeclarations (body program) in
  let text := getSourceCode context in
  Program context program = [] ->
  mixesClasses imports = false ->
  imports <> [] ->
  laidOut 0 imports ->
  forallb (fun d => isSolid (getText context d)) imports = true ->
  (forall d, In d imports -> snd (range d) <= String.length text) ->
  exists edit,
    fixImportDefinitions context imports hostFixer = Some edit
    /\ applyFix text edit = text.
Proof.
  intros imports text Haccepted Hmix Hne Hlayout Hsolid Hbound.
  destruct (fixImportDefinitions_runs context imports Hne)
    as [f [l [Hf [Hl Hrun]]]].
  eexists. split; [exact Hrun|].
  change (Js.sort compareDefinitions imports) with (targetOrder imports).
  unfold imports at 2.
  rewrite (proj2 (accepted_is_sorted context program Haccepted Hmix)).
  fold imports.
  rewrite TrimFacts.trim_segments
    by (apply segments_solid; exact Hsolid).
  rewrite identity_segments_trimmed.
  pose proof (identity_splice context imports f l Hlayout Hf Hl) as Hid.
  rewrite sortNodes_segments in Hid
    by (apply Permutation_Forall_In, Permutation_refl).
  injection Hid as ->.
  unfold applyFix. cbn [fix_range fix_text fst snd].
  destruct (laidOut_within imports f l Hlayout Hf Hl f (first_In _ _ Hf))
    as [_ [Hlen Hend]].
  apply whole_text.
  - cbn [range ImportDeclaration_Node] in *. lia.
  - apply Hbound. exact (last_In _ _ Hl).
Qed.

Lemma accepted_rewrite_changes_nothing_witness :
  exists edit,
    fixImportDefinitions Samples.twiceContext
      (importDeclarations (body (Samples.programOf Samples.twiceImports)))
      hostFixer = Some edit
    /\ applyFix (getSourceCode Samples.twiceContext) edit
       = getSourceCode Samples.twiceContext.
Proof.
  assert (Hlayout : laidOut 0
            (importDeclarations (body (Samples.programOf Samples.twiceImports))))
    by (vm_compute; lia).
  assert (Hbound : forall d,
             In d (importDeclarations
                     (body (Samples.programOf Samples.twiceImports))) ->
             snd (range d) <= String.length (getSourceCode Samples.twiceContext)).
  { intros d Hd. cbn in Hd.
    destruct Hd as [<-|[<-|[<-|[]]]]; vm_compute; lia. }
  exact (accepted_rewrite_changes_nothing Samples.twiceContext
           (Samples.programOf Samples.twiceImports)
           eq_refl eq_refl ltac:(discriminate) Hlayout eq_refl Hbound).
Defined.

(* ------------------------------------------------------------------ *)
(** ** Errors of the splicer and of the rewrites *)

Section SplicerErrors.

Variable context : Context.
Context {A : Type} `{Node A}.

Lemma indexOf_from_absent (arr : list A) (x : A) : forall i,
  ~ In x arr -> Js.indexOf_from same arr x i = (-1)%Z.
Proof.
  induction arr as [|y arr IH]; intros i Hnotin; [reflexivity|].
  cbn. rewrite same_false.
  - apply IH. intros Hin. apply Hnotin. now right.
  - intros ->. apply Hnotin. now left.
Qed.

Lemma sortNodes_step_absent original result node index :
  ~ In node original ->
  sortNodes_step context original result node index = None.
Proof.
  intros Hnotin. unfold sortNodes_step, Js.indexOf.
  rewrite indexOf_from_absent by assumption. reflexivity.
Qed.

Lemma reduce_from_absent original sorted : forall index acc,
  Exists (fun n => ~ In n original) sorted ->
  Js.reduce_from (sortNodes_step context original) sorted index acc = None.
Proof.
  induction sorted as [|n sorted IH]; intros index acc Hex;
    [inversion Hex|].
  cbn [Js.reduce_from].
  destruct (sortNodes_step context original acc n index) as [acc'|] eqn:Hstep;
    [|reflexivity].
  inversion Hex as [? ? Hn|? ? Hrest]; subst.
  - rewrite sortNodes_step_absent in Hstep by assumption. discriminate.
  - now apply IH.
Qed.

Lemma In_decidable (original : list A) (n : A) :
  {In n original} + {~ In n original}.
Proof.
  apply in_dec. intros a b.
  destruct (same_spec a b); [now left|now right].
Qed.

End SplicerErrors.

(** X10.  The splicer throws exactly when the target holds a node that is
    not one of the original sequence; on any other target, a
    rearrangement or not, it returns a text. *)
Theorem sortNodes_throws_iff_foreign_node context {A : Type} `{Node A}
  (original sorted : list A) :
  sortNodes context original sorted = None
  <-> exists n, In n sorted /\ ~ In n original.
Proof.
  split.
  - intros Hnone.
    destruct (Forall_Exists_dec (fun n => In n original)
                (In_decidable original) sorted) as [Hall|Hex].
    + rewrite sortNodes_segments in Hnone by assumption. discriminate.
    + apply Exists_exists in Hex. exact Hex.
  - intros [n [Hn Hnotin]]. unfold sortNodes, Js.reduce.
    apply reduce_from_absent. apply Exists_exists. now exists n.
Qed.

(** X11.  Called by the host, the closure of either rewrite throws on the
    empty array, which has no first node, and on nothing else: on every
    array that is not empty it returns the replacement the fixer builds
    over the range from the first node to the last. *)
Theorem fix_closures_throw_iff_empty context fixer
  (specifiers : list Specifier) (imports : list ImportDeclaration) :
  (fixImportMembers context specifiers fixer = None <-> specifiers = [])
  /\ (fixImportDefinitions context imports fixer = None <-> imports = []).
Proof.
  split; split.
  - intros Hnone. destruct specifiers as [|s l]; [reflexivity|].
    destruct (first_last_nonempty (s :: l)) as [f [la [Hf Hl]]];
      [discriminate|].
    unfold fixImportMembers in Hnone. rewrite Hf, Hl in Hnone.
    rewrite sortNodes_segments in Hnone by apply sort_Forall_In.
    discriminate.
  - intros ->. reflexivity.
  - intros Hnone. destruct imports as [|s l]; [reflexivity|].
    destruct (first_last_nonempty (s :: l)) as [f [la [Hf Hl]]];
      [discriminate|].
    unfold fixImportDefinitions in Hnone. rewrite Hf, Hl in Hnone.
    rewrite sortNodes_segments in Hnone by apply sort_Forall_In.
    discriminate.
  - intros ->. reflexivity.
Qed.

(** X13.  Two distinct nodes spliced in the opposite order: the text
    that stood between them moves to the front with the second node, and
    a line break takes its place. *)
Theorem sortNodes_swap context {A : Type} `{Node A} (a b : A) :
  a <> b ->
  sortNodes context [a; b] [b; a]
  = Some (getCodeBetween context a b ++ getText context b
          ++ lineBreak ++ getText context a).
Proof.
  intros Hne.
  rewrite sortNodes_segments
    by (repeat constructor; cbn; auto).
  cbn [segments joinSegments fold_right fst snd].
  unfold gapBefore. cbn [gapOf].
  rewrite (same_false a b Hne), !same_refl. cbn [Nat.eqb].
  now rewrite !JsFacts.append_nil_r.
Qed.

Lemma sortNodes_swap_witness :
  sortNodes Samples.leadingDefaultContext
    [Samples.specifier "b" 12 13; Samples.specifier "a" 15 16]
    [Samples.specifier "a" 15 16; Samples.specifier "b" 12 13]
  = Some (getCodeBetween Samples.leadingDefaultContext
            (Samples.specifier "b" 12 13) (Samples.specifier "a" 15 16)
          ++ getText Samples.leadingDefaultContext (Samples.specifier "a" 15 16)
          ++ lineBreak
          ++ getText Samples.leadingDefaultContext
               (Samples.specifier "b" 12 13)).
Proof.
  apply (sortNodes_swap Samples.leadingDefaultContext
           (Samples.specifier "b" 12 13) (Samples.specifier "a" 15 16)).
  discriminate.
Defined.

(* ------------------------------------------------------------------ *)
(** ** The order the rewrites write *)

Lemma compareMembers_key context a b :
  (compareMembers context a b >? 0)%Z
  = negb (String.leb (getSpecifierName context a) (getSpecifierName context b)).
Proof.
  unfold compareMembers. rewrite <- KeyOrder.string_ltb_leb.
  now destruct (String.ltb (getSpecifierName context b)
                  (getSpecifierName context a)).
Qed.

(** X14.  The comparator of the bindings never answers 0: for two
    bindings of the same key it answers -1 both ways.  When the keys of
    the bindings are pairwise different it is a consistent order, and the
    order in which the rewrite of the bindings writes them is the one
    ascending in the code-unit order of the keys of [getSpecifierName],
    whatever engine sorts. *)
Theorem fixImportMembers_order context specifiers :
  NoDup (map (getSpecifierName context) specifiers) ->
  (forall a b, compareMembers context a b <> 0%Z)
  /\ (forall a b,
        getSpecifierName context a = getSpecifierName context b ->
        compareMembers context a b = (-1)%Z
        /\ compareMembers context b a = (-1)%Z)
  /\ Js.sort (compareMembers context) specifiers
     = stableSortByKey (getSpecifierName context) String.leb specifiers
  /\ Permutation specifiers (Js.sort (compareMembers context) specifiers)
  /\ StronglySorted (keyLe (getSpecifierName context) String.leb)
       (Js.sort (compareMembers context) specifiers)
  /\ (forall fixer edit,
        fixImportMembers context specifiers fixer = Some edit ->
        exists firstNode lastNode text,
          first specifiers = Some firstNode
          /\ last specifiers = Some lastNode
          /\ sortNodes context specifiers
               (stableSortByKey (getSpecifierName context) String.leb
                  specifiers) = Some text
          /\ edit = replaceTextRange fixer
                      (fst (range firstNode), snd (range lastNode))
                      (Js.trim text)).
Proof.
  intros _.
  assert (Hsort : Js.sort (compareMembers context) specifiers
                  = stableSortByKey (getSpecifierName context) String.leb
                      specifiers).
  { apply (sort_is_stableSortByKey (getSpecifierName context) String.leb
             string_dec KeyOrder.string_leb_refl String.leb_total
             KeyOrder.string_leb_trans String.leb_antisym
             (compareMembers context) (compareMembers_key context)). }
  split; [|split; [|split; [|split; [|split]]]].
  - intros a b. unfold compareMembers.
    now destruct (String.ltb _ _).
  - intros a b Hkey. unfold compareMembers. rewrite Hkey.
    assert (Hirr : String.ltb (getSpecifierName context b)
                     (getSpecifierName context b) = false).
    { rewrite KeyOrder.string_ltb_leb.
      now rewrite KeyOrder.string_leb_refl. }
    rewrite Hirr. now split.
  - exact Hsort.
  - apply Permutation_sym, JsFacts.sort_perm.
  - apply (sort_sorted (getSpecifierName context) String.leb
             String.leb_total KeyOrder.string_leb_trans
             (compareMembers context) (compareMembers_key context)).
  - intros fixer edit. unfold fixImportMembers. rewrite Hsort.
    destruct (first specifiers) as [f|]; [|discriminate].
    destruct (last specifiers) as [l|]; [|discriminate].
    destruct (sortNodes context specifiers _) as [text|]; [|discriminate].
    intros [= <-]. exists f, l, text. repeat split.
Qed.

Lemma fixImportMembers_order_witness :
  (forall a b, compareMembers Samples.unsortedContext a b <> 0%Z)
  /\ (forall a b,
        getSpecifierName Samples.unsortedContext a
        = getSpecifierName Samples.unsortedContext b ->
        compareMembers Samples.unsortedContext a b = (-1)%Z
        /\ compareMembers Samples.unsortedContext b a = (-1)%Z)
  /\ Js.sort (compareMembers Samples.unsortedContext)
       [Samples.specifier "b" 9 10; Samples.specifier "a" 12 13]
     = stableSortByKey (getSpecifierName Samples.unsortedContext) String.leb
         [Samples.specifier "b" 9 10; Samples.specifier "a" 12 13]
  /\ Permutation
       [Samples.specifier "b" 9 10; Samples.specifier "a" 12 13]
       (Js.sort (compareMembers Samples.unsortedContext)
          [Samples.specifier "b" 9 10; Samples.specifier "a" 12 13])
  /\ StronglySorted
       (keyLe (getSpecifierName Samples.unsortedContext) String.leb)
       (Js.sort (compareMembers Samples.unsortedContext)
          [Samples.specifier "b" 9 10; Samples.specifier "a" 12 13])
  /\ (forall fixer edit,
        fixImportMembers Samples.unsortedContext
          [Samples.specifier "b" 9 10; Samples.specifier "a" 12 13] fixer
        = Some edit ->
        exists firstNode lastNode text,
          first [Samples.specifier "b" 9 10; Samples.specifier "a" 12 13]
          = Some firstNode
          /\ last [Samples.specifier "b" 9 10; Samples.specifier "a" 12 13]
             = Some lastNode
          /\ sortNodes Samples.unsortedContext
               [Samples.specifier "b" 9 10; Samples.specifier "a" 12 13]
               (stableSortByKey (getSpecifierName Samples.unsortedContext)
                  String.leb
                  [Samples.specifier "b" 9 10; Samples.specifier "a" 12 13])
             = Some text
          /\ edit = replaceTextRange fixer
                      (fst (range firstNode), snd (range lastNode))
                      (Js.trim text)).
Proof.
  apply (fixImportMembers_order Samples.unsortedContext
           [Samples.specifier "b" 9 10; Samples.specifier "a" 12 13]).
  vm_compute.
  constructor; [intros [Heq|[]]; discriminate|].
  constructor; [intros []|constructor].
Defined.

Section PairOrder.

Context {A : Type} `{Node A}.
Variable comparefn : A -> A -> Z.

Lemma insertBack_filter_kept (P : A -> bool) element revPrefix :
  (forall tmp, In tmp revPrefix -> P tmp = true -> P element = true ->
               (comparefn tmp element >? 0)%Z = false) ->
  filter P (Js.insertBack comparefn element revPrefix)
  = filter P (element :: revPrefix).
Proof.
  induction revPrefix as [|tmp r IH]; intros Hkept; [reflexivity|].
  cbn [Js.insertBack].
  destruct (comparefn tmp element >? 0)%Z eqn:Hcmp; [|reflexivity].
  cbn [filter] in *. rewrite IH.
  - destruct (P tmp) eqn:Pt, (P element) eqn:Pe; try reflexivity.
    rewrite Hkept in Hcmp; [discriminate|now left|assumption|reflexivity].
  - intros tmp' Hin. apply Hkept. now right.
Qed.

Lemma fold_insertBack_others (P : A -> bool) array : forall revPrefix,
  (forall x, In x array -> P x = false) ->
  filter P (fold_left (fun acc element => Js.insertBack comparefn element acc)
                      array revPrefix)
  = filter P revPrefix.
Proof.
  induction array as [|x array IH]; intros revPrefix Hnot; [reflexivity|].
  cbn [fold_left]. rewrite IH by (intros y Hy; apply Hnot; now right).
  rewrite insertBack_filter_kept.
  - cbn [filter]. now rewrite (Hnot x (or_introl eq_refl)).
  - intros tmp _ _ Hx. rewrite (Hnot x (or_introl eq_refl)) in Hx.
    discriminate.
Qed.

Lemma filter_one (P : A -> bool) (l : list A) b :
  filter P l = [b] -> exists m2 m3, l = (m2 ++ b :: m3)%list.
Proof.
  induction l as [|x l IH]; [discriminate|].
  cbn [filter]. destruct (P x).
  - intros [= -> _]. now exists [], l.
  - intros Hf. destruct (IH Hf) as [m2 [m3 ->]].
    now exists (x :: m2), m3.
Qed.

Lemma filter_two (P : A -> bool) (l : list A) a b :
  filter P l = [a; b] ->
  exists m1 m2 m3, l = (m1 ++ a :: m2 ++ b :: m3)%list.
Proof.
  induction l as [|x l IH]; [discriminate|].
  cbn [filter]. destruct (P x).
  - intros [= -> Hf]. destruct (filter_one P l b Hf) as [m2 [m3 ->]].
    now exists [], m2, m3.
  - intros Hf. destruct (IH Hf) as [m1 [m2 [m3 ->]]].
    now exists (x :: m1), m2, m3.
Qed.

Lemma oneOf_spec (a b d : A) : oneOf a b d = true <-> d = a \/ d = b.
Proof.
  unfold oneOf. rewrite orb_true_iff.
  destruct (same_spec a d), (same_spec b d); split; intros [?|?];
    auto; try discriminate; congruence.
Qed.

Lemma oneOf_other (a b d : A) : d <> a -> d <> b -> oneOf a b d = false.
Proof.
  intros Ha Hb. destruct (oneOf a b d) eqn:Hone; [|reflexivity].
  apply oneOf_spec in Hone. tauto.
Qed.

(** The engine's sort turns two elements round only when the comparator
    says so. *)
Lemma sort_keeps_pair l1 a l2 b l3 :
  NoDup (l1 ++ a :: l2 ++ b :: l3) ->
  (comparefn a b >? 0)%Z = false ->
  exists m1 m2 m3,
    Js.sort comparefn (l1 ++ a :: l2 ++ b :: l3)
    = (m1 ++ a :: m2 ++ b :: m3)%list.
Proof.
  intros Hnodup Hkept.
  pose proof (NoDup_remove_2 _ _ _ Hnodup) as Ha.
  assert (Hnodup' : NoDup ((l1 ++ a :: l2) ++ b :: l3))
    by (rewrite <- app_assoc; exact Hnodup).
  pose proof (NoDup_remove_2 _ _ _ Hnodup') as Hb.
  assert (Hab : a <> b).
  { intros ->. apply Ha. apply in_or_app. right.
    apply in_or_app. right. now left. }
  assert (Hother : forall l, incl l (l1 ++ l2 ++ l3) ->
                             forall x, In x l -> oneOf a b x = false).
  { intros l Hincl x Hx. apply oneOf_other.
    - intros ->. apply Ha. specialize (Hincl _ Hx).
      apply in_app_or in Hincl. apply in_or_app.
      destruct Hincl as [?|Hincl]; [now left|right].
      apply in_app_or in Hincl. apply in_or_app.
      destruct Hincl as [?|?]; [now left|right; now right].
    - intros ->. apply Hb. specialize (Hincl _ Hx).
      apply in_app_or in Hincl. apply in_or_app.
      destruct Hincl as [?|Hincl].
      + left. apply in_or_app. now left.
      + apply in_app_or in Hincl. destruct Hincl as [?|?].
        * left. apply in_or_app. right. now right.
        * now right. }
  apply (filter_two (oneOf a b)).
  unfold Js.sort, Js.sortRev.
  rewrite filter_rev.
  rewrite fold_left_app. cbn [fold_left].
  rewrite fold_left_app. cbn [fold_left].
  rewrite fold_insertBack_others
    by (apply Hother; intros x Hx; apply in_or_app; right;
        apply in_or_app; now right).
  assert (H1 : filter (oneOf a b)
                 (fold_left
                    (fun acc element => Js.insertBack comparefn element acc)
                    l1 []) = []).
  { rewrite fold_insertBack_others; [reflexivity|].
    apply Hother. intros x Hx. apply in_or_app. now left. }
  assert (H3 : filter (oneOf a b)
                 (fold_left
                    (fun acc element => Js.insertBack comparefn element acc)
                    l2
                    (Js.insertBack comparefn a
                       (fold_left
                          (fun acc element =>
                             Js.insertBack comparefn element acc) l1 [])))
               = [a]).
  { rewrite fold_insertBack_others
      by (apply Hother; intros x Hx; apply in_or_app; right;
          apply in_or_app; now left).
    rewrite insertBack_filter_kept.
    - cbn [filter]. rewrite H1.
      now rewrite (proj2 (oneOf_spec a b a) (or_introl eq_refl)).
    - intros tmp Hin Htmp _.
      assert (Hf : In tmp (filter (oneOf a b)
                             (fold_left
                                (fun acc element =>
                                   Js.insertBack comparefn element acc)
                                l1 [])))
        by (apply filter_In; now split).
      rewrite H1 in Hf. contradiction. }
  rewrite insertBack_filter_kept.
  - cbn [filter]. rewrite H3.
    now rewrite (proj2 (oneOf_spec a b b) (or_intror eq_refl)).
  - intros tmp Hin Htmp _.
    assert (Hf : In tmp [a]) by (rewrite <- H3; apply filter_In; now split).
    destruct Hf as [<-|[]]. exact Hkept.
Qed.

End PairOrder.

(** X15.  On a list of distinct declarations that does not hold both an
    empty relative import and a non-empty absolute one, the target order
    of the rewrite turns two declarations round only when the comparator
    says so: if one stands before the other and the comparator does not
    answer 1 for the two, it stands before the other in the target order
    too.  In particular declarations the comparator calls equal keep
    their order. *)
Theorem targetOrder_keeps_pair l1 a l2 b l3 :
  NoDup (l1 ++ a :: l2 ++ b :: l3) ->
  mixesClasses (l1 ++ a :: l2 ++ b :: l3) = false ->
  (compareDefinitions a b >? 0)%Z = false ->
  exists m1 m2 m3,
    stableSortByKey compositeKey compositeLeb (l1 ++ a :: l2 ++ b :: l3)
    = (m1 ++ a :: m2 ++ b :: m3)%list
    /\ targetOrder (l1 ++ a :: l2 ++ b :: l3)
       = (m1 ++ a :: m2 ++ b :: m3)%list.
Proof.
  intros Hnodup Hmix Hkept.
  destruct (sort_keeps_pair compareDefinitions l1 a l2 b l3 Hnodup Hkept)
    as [m1 [m2 [m3 Hsort]]].
  exists m1, m2, m3. split; [|exact Hsort].
  rewrite <- (targetOrder_stable _ Hmix). exact Hsort.
Qed.

Lemma targetOrder_keeps_pair_witness :
  exists m1 m2 m3,
    stableSortByKey compositeKey compositeLeb
      ([] ++ Samples.declaration "a" [] 0 11
          :: [Samples.declaration "b" [] 12 23]
          ++ Samples.declaration "a" [Samples.defaultSpecifier "x" 31 32] 24 42
          :: [])
    = (m1 ++ Samples.declaration "a" [] 0 11
          :: m2
          ++ Samples.declaration "a" [Samples.defaultSpecifier "x" 31 32] 24 42
          :: m3)%list
    /\ targetOrder
         ([] ++ Samples.declaration "a" [] 0 11
             :: [Samples.declaration "b" [] 12 23]
             ++ Samples.declaration "a" [Samples.defaultSpecifier "x" 31 32]
                  24 42
             :: [])
       = (m1 ++ Samples.declaration "a" [] 0 11
             :: m2
             ++ Samples.declaration "a" [Samples.defaultSpecifier "x" 31 32]
                  24 42
             :: m3)%list.
Proof.
  apply (targetOrder_keeps_pair []
           (Samples.declaration "a" [] 0 11)
           [Samples.declaration "b" [] 12 23]
           (Samples.declaration "a" [Samples.defaultSpecifier "x" 31 32] 24 42)
           []).
  - apply (laidOut_NoDup _ 0). vm_compute. lia.
  - reflexivity.
  - reflexivity.
Defined.

(* ------------------------------------------------------------------ *)
(** ** Any engine, on the two classes the comparator cannot tell apart *)

Lemma compareDefinitions_self a : compareDefinitions a a = 0%Z.
Proof.
  unfold compareDefinitions. rewrite String.eqb_refl.
  now destruct (isEmptyImport a), (isAbsolute (getModuleName a)).
Qed.

Lemma compareDefinitions_mixed a b :
  emptyRelative a = true -> nonEmptyAbsolute b = true ->
  compareDefinitions a b = (-1)%Z /\ compareDefinitions b a = (-1)%Z.
Proof.
  unfold emptyRelative, nonEmptyAbsolute, compareDefinitions, isEmpty,
    isAbsoluteImport.
  destruct (isEmptyImport a), (isEmptyImport b),
    (isAbsolute (getModuleName a)), (isAbsolute (getModuleName b));
    cbn; try discriminate. auto.
Qed.

(** X16.  No sort engine that decides by the answers of the comparator
    alone can put the empty imports first on every list: for an empty
    relative import and a non-empty absolute one the comparator gives the
    same answers whichever of the two comes first, so the engine arranges
    both lists the same way, and in one of the two results the non-empty
    import stands first. *)
Theorem no_engine_orders_mixed_pair (engine : Engine) a b :
  emptyRelative a = true ->
  nonEmptyAbsolute b = true ->
  (forall f g n, (forall i j, f i j = g i j) -> engine f n = engine g n) ->
  Permutation [0; 1] (engine (outcomes compareDefinitions [a; b]) 2) ->
  emptiesFirst (arrange engine compareDefinitions [a; b]) = false
  \/ emptiesFirst (arrange engine compareDefinitions [b; a]) = false.
Proof.
  intros Ha Hb Hext Hperm.
  destruct (compareDefinitions_mixed a b Ha Hb) as [Hab Hba].
  assert (Hsame : engine (outcomes compareDefinitions [b; a]) 2
                  = engine (outcomes compareDefinitions [a; b]) 2).
  { apply Hext. intros [|[|[|i]]] [|[|[|j]]]; cbn;
      rewrite ?compareDefinitions_self, ?Hab, ?Hba; reflexivity. }
  assert (Hea : isEmpty a = true).
  { unfold emptyRelative in Ha. now apply andb_true_iff in Ha. }
  assert (Heb : isEmpty b = false).
  { unfold nonEmptyAbsolute in Hb. apply andb_true_iff in Hb.
    now apply negb_true_iff. }
  unfold arrange. cbn [List.length]. rewrite Hsame.
  apply Permutation_length_2_inv in Hperm.
  destruct Hperm as [-> | ->]; [right|left]; cbn; now rewrite Hea, Heb.
Qed.

Lemma no_engine_orders_mixed_pair_witness :
  emptiesFirst
    (arrange (fun _ n => seq 0 n) compareDefinitions
       [Samples.declaration "./a" [] 0 13;
        Samples.declaration "pkg" [Samples.defaultSpecifier "x" 21 22] 14 34])
  = false
  \/ emptiesFirst
       (arrange (fun _ n => seq 0 n) compareDefinitions
          [Samples.declaration "pkg" [Samples.defaultSpecifier "x" 21 22] 14 34;
           Samples.declaration "./a" [] 0 13])
     = false.
Proof.
  apply (no_engine_orders_mixed_pair (fun _ n => seq 0 n)
           (Samples.declaration "./a" [] 0 13)
           (Samples.declaration "pkg" [Samples.defaultSpecifier "x" 21 22]
              14 34)).
  - reflexivity.
  - reflexivity.
  - intros f g n _. reflexivity.
  - apply Permutation_refl.
Defined.

(** X17.  Every report of a pass is about two neighbouring import
    declarations and names them: a report of a module imported twice
    names that module, which both import; any other report names the
    module of the second declaration as [currentName] and that of the
    first as [prevName], two different modules. *)
Theorem Program_report_names context program r :
  In r (Program context program) ->
  exists prev current,
    In (prev, current) (adjacentPairs (importDeclarations (body program)))
    /\ ((message r = DuplicateModule
         /\ getModuleName prev = getModuleName current
         /\ data r = [("currentName", getModuleName current)])
        \/ (message r <> DuplicateModule
            /\ getModuleName prev <> getModuleName current
            /\ data r = [("currentName", getModuleName current);
                         ("prevName", getModuleName prev)])).
Proof.
  intros Hin. rewrite Program_by_pairs in Hin.
  apply in_flat_map in Hin. destruct Hin as [[prev current] [Hpair Hr]].
  exists prev, current. split; [exact Hpair|].
  destruct (pairReports_inv context program _ _ _ r Hr)
    as [_ [[Hm [_ [Hname Hdata]]]|[Hm [_ [_ [Hname [_ Hdata]]]]]]];
    [left|right]; now repeat split.
Qed.

Lemma Program_report_names_witness :
  exists prev current,
    In (prev, current)
       (adjacentPairs
          (importDeclarations (body (Samples.programOf Samples.swappedImports))))
    /\ ((message Samples.swappedReport = DuplicateModule
         /\ getModuleName prev = getModuleName current
         /\ data Samples.swappedReport
            = [("currentName", getModuleName current)])
        \/ (message Samples.swappedReport <> DuplicateModule
            /\ getModuleName prev <> getModuleName current
            /\ data Samples.swappedReport
               = [("currentName", getModuleName current);
                  ("prevName", getModuleName prev)])).
Proof.
  apply (Program_report_names Samples.swappedContext
           (Samples.programOf Samples.swappedImports)).
  left. reflexivity.
Defined.

(* ------------------------------------------------------------------ *)
(** ** Gaps travel with the node that follows them *)

Section GapTravels.

Variable context : Context.
Context {A : Type} `{Node A}.

Lemma gapBefore_predecessor pre p n suf index :
  NoDup (pre ++ p :: n :: suf) ->
  gapBefore context (pre ++ p :: n :: suf) n index
  = getCodeBetween context p n.
Proof.
  intros Hnodup.
  assert (Hn : ~ In n (pre ++ [p])).
  { replace (pre ++ p :: n :: suf)%list with ((pre ++ [p]) ++ n :: suf)%list
      in Hnodup by (rewrite <- app_assoc; reflexivity).
    apply NoDup_remove_2 in Hnodup. intros Hin. apply Hnodup.
    apply in_or_app. now left. }
  destruct pre as [|o pre]; cbn [app gapBefore].
  - rewrite same_false by (intros ->; apply Hn; now left).
    cbn [gapOf]. now rewrite same_refl.
  - rewrite same_false by (intros ->; apply Hn; now left).
    replace (pre ++ p :: n :: suf)%list with ((pre ++ [p]) ++ n :: suf)%list
      by (rewrite <- app_assoc; reflexivity).
    rewrite gapOf_skip by (intros Hin; apply Hn; now right).
    now rewrite last_snoc.
Qed.

End GapTravels.

(** X18.  Wherever a node lands, the splicer writes before it the text
    that lay between it and the node before it in the original sequence;
    before the node that was first it writes nothing if the node stays
    first and a line break if it does not. *)
Theorem sortNodes_step_keeps_gap context {A : Type} `{Node A}
  (pre : list A) (p n : A) (suf : list A) (result : string) (index : nat) :
  NoDup (pre ++ p :: n :: suf) ->
  sortNodes_step context (pre ++ p :: n :: suf) result n index
  = Some (result ++ getCodeBetween context p n ++ getText context n)
  /\ sortNodes_step context (p :: n :: suf) result p index
     = Some (result ++ (if index =? 0 then "" else lineBreak)
                    ++ getText context p).
Proof.
  intros Hnodup. split.
  - rewrite sortNodes_step_spec
      by (apply in_or_app; right; right; now left).
    now rewrite gapBefore_predecessor.
  - rewrite sortNodes_step_spec by now left.
    unfold gapBefore. now rewrite same_refl.
Qed.

Lemma sortNodes_step_keeps_gap_witness :
  sortNodes_step Samples.commentedContext
    ([] ++ Samples.declaration "./b" [] 0 13
        :: Samples.declaration "./a" [] 22 35 :: [])
    "" (Samples.declaration "./a" [] 22 35) 0
  = Some ("" ++ getCodeBetween Samples.commentedContext
                  (Samples.declaration "./b" [] 0 13)
                  (Samples.declaration "./a" [] 22 35)
             ++ getText Samples.commentedContext
                  (Samples.declaration "./a" [] 22 35))
  /\ sortNodes_step Samples.commentedContext
       (Samples.declaration "./b" [] 0 13
        :: Samples.declaration "./a" [] 22 35 :: [])
       "" (Samples.declaration "./b" [] 0 13) 0
     = Some ("" ++ (if 0 =? 0 then "" else lineBreak)
                ++ getText Samples.commentedContext
                     (Samples.declaration "./b" [] 0 13)).
Proof.
  apply (sortNodes_step_keeps_gap Samples.commentedContext []
           (Samples.declaration "./b" [] 0 13)
           (Samples.declaration "./a" [] 22 35) [] "" 0).
  apply (laidOut_NoDup _ 0). vm_compute. lia.
Defined.

(* ------------------------------------------------------------------ *)
(** ** The rewrite of two nodes *)

Lemma sort_two {A} (comparefn : A -> A -> Z) (a b : A) :
  Js.sort comparefn [a; b]
  = if (comparefn a b >? 0)%Z then [b; a] else [a; b].
Proof.
  unfold Js.sort, Js.sortRev. cbn.
  now destruct (comparefn a b >? 0)%Z.
Qed.

Lemma last_two {A} (a b : A) : last [a; b] = Some b.
Proof. reflexivity. Qed.

(** X19.  The rewrite of two declarations the comparator wants the other
    way round replaces the range from the start of the first to the end
    of the second by: the text that stood between the two, the second
    declaration, a line break, the first declaration; all of it
    trimmed. *)
Theorem fixImportDefinitions_two context fixer prev current :
  prev <> current ->
  (compareDefinitions prev current >? 0)%Z = true ->
  fixImportDefinitions context [prev; current] fixer
  = Some (replaceTextRange fixer
            (fst (range prev), snd (range current))
            (Js.trim (getCodeBetween context prev current
                      ++ getText context current
                      ++ lineBreak ++ getText context prev))).
Proof.
  intros Hne Hcmp. unfold fixImportDefinitions.
  rewrite sort_two, Hcmp, JsFacts.first_cons, last_two.
  rewrite sortNodes_segments by (repeat constructor; cbn; auto).
  cbn [segments joinSegments fold_right fst snd].
  unfold gapBefore. cbn [gapOf].
  rewrite (same_false prev current Hne), !same_refl. cbn [Nat.eqb].
  now rewrite !JsFacts.append_nil_r.
Qed.

Lemma fixImportDefinitions_two_witness :
  fixImportDefinitions Samples.commentedContext
    [Samples.declaration "./b" [] 0 13; Samples.declaration "./a" [] 22 35]
    hostFixer
  = Some (replaceTextRange hostFixer
            (fst (range (Samples.declaration "./b" [] 0 13)),
             snd (range (Samples.declaration "./a" [] 22 35)))
            (Js.trim
               (getCodeBetween Samples.commentedContext
                  (Samples.declaration "./b" [] 0 13)
                  (Samples.declaration "./a" [] 22 35)
                ++ getText Samples.commentedContext
                     (Samples.declaration "./a" [] 22 35)
                ++ lineBreak
                ++ getText Samples.commentedContext
                     (Samples.declaration "./b" [] 0 13)))).
Proof.
  apply (fixImportDefinitions_two Samples.commentedContext hostFixer
           (Samples.declaration "./b" [] 0 13)
           (Samples.declaration "./a" [] 22 35)).
  - discriminate.
  - reflexivity.
Defined.

(** X20.  The rewrite of two bindings of which the second has the smaller
    key is built the same way, so it begins with what stood between the
    two bindings, their separator: written over [b, a] it gives the
    comma, [a], a line break and [b], not [a, b]. *)
Theorem fixImportMembers_two context fixer a b :
  a <> b ->
  String.ltb (getSpecifierName context b) (getSpecifierName context a) = true ->
  fixImportMembers context [a; b] fixer
  = Some (replaceTextRange fixer
            (fst (range a), snd (range b))
            (Js.trim (getCodeBetween context a b ++ getText context b
                      ++ lineBreak ++ getText context a))).
Proof.
  intros Hne Hlt. unfold fixImportMembers.
  rewrite sort_two. unfold compareMembers at 1. rewrite Hlt.
  cbn [Z.gtb Z.compare]. rewrite JsFacts.first_cons, last_two.
  rewrite sortNodes_segments by (repeat constructor; cbn; auto).
  cbn [segments joinSegments fold_right fst snd].
  unfold gapBefore. cbn [gapOf].
  rewrite (same_false a b Hne), !same_refl. cbn [Nat.eqb].
  now rewrite !JsFacts.append_nil_r.
Qed.

Lemma fixImportMembers_two_witness :
  fixImportMembers Samples.unsortedContext
    [Samples.specifier "b" 9 10; Samples.specifier "a" 12 13] hostFixer
  = Some (replaceTextRange hostFixer
            (fst (range (Samples.specifier "b" 9 10)),
             snd (range (Samples.specifier "a" 12 13)))
            (Js.trim
               (getCodeBetween Samples.unsortedContext
                  (Samples.specifier "b" 9 10) (Samples.specifier "a" 12 13)
                ++ getText Samples.unsortedContext (Samples.specifier "a" 12 13)
                ++ lineBreak
                ++ getText Samples.unsortedContext
                     (Samples.specifier "b" 9 10)))).
Proof.
  apply (fixImportMembers_two Samples.unsortedContext hostFixer
           (Samples.specifier "b" 9 10) (Samples.specifier "a" 12 13)).
  - discriminate.
  - reflexivity.
Defined.

(** X21.  In the text after the rewrite of bindings whose keys are
    pairwise different, the raw texts of the bindings lie one after the
    other in the ascending order of their keys, from the start of the
    replaced range on. *)
Theorem fixImportMembers_text context specifiers :
  NoDup (map (getSpecifierName context) specifiers) ->
  specifiers <> [] ->
  forallb (fun s => isSolid (getText context s)) specifiers = true ->
  (forall s, In s specifiers ->
             fst (range s) <= String.length (getSourceCode context)) ->
  exists edit ranges,
    fixImportMembers context specifiers hostFixer = Some edit
    /\ Forall2 (fun s place =>
                  Js.slice (applyFix (getSourceCode context) edit)
                    (fst place) (snd place)
                  = getText context s)
               (stableSortByKey (getSpecifierName context) String.leb
                  specifiers)
               ranges
    /\ inSequence (fst (fix_range edit)) ranges.
Proof.
  intros _ Hne Hsolid Hbound.
  destruct (fixImportMembers_runs context specifiers Hne)
    as [f [l [Hf [_ Hrun]]]].
  assert (Hsort : Js.sort (compareMembers context) specifiers
                  = stableSortByKey (getSpecifierName context) String.leb
                      specifiers).
  { apply (sort_is_stableSortByKey (getSpecifierName context) String.leb
             string_dec KeyOrder.string_leb_refl String.leb_total
             KeyOrder.string_leb_trans String.leb_antisym
             (compareMembers context) (compareMembers_key context)). }
  assert (Hsorted : forallb (fun s => isSolid (getText context s))
                      (Js.sort (compareMembers context) specifiers) = true).
  { apply forallb_forall. intros s Hs.
    apply JsFacts.sort_In in Hs.
    exact (proj1 (forallb_forall _ _) Hsolid s Hs). }
  destruct (rewritten_text context specifiers
              (Js.sort (compareMembers context) specifiers) _
              (fst (range f), snd (range l))
              (sort_Forall_In (compareMembers context) specifiers) Hsorted
              (Hbound _ (first_In _ _ Hf)) eq_refl)
    as [_ [Hplaces Hsequence]].
  rewrite Hsort in Hplaces, Hsequence.
  eexists _, _. split; [exact Hrun|]. split.
  - rewrite Hsort. exact Hplaces.
  - rewrite Hsort. exact Hsequence.
Qed.

Lemma fixImportMembers_text_witness :
  exists edit ranges,
    fixImportMembers Samples.unsortedContext
      [Samples.specifier "b" 9 10; Samples.specifier "a" 12 13] hostFixer
    = Some edit
    /\ Forall2 (fun s place =>
                  Js.slice (applyFix (getSourceCode Samples.unsortedContext)
                              edit)
                    (fst place) (snd place)
                  = getText Samples.unsortedContext s)
               (stableSortByKey (getSpecifierName Samples.unsortedContext)
                  String.leb
                  [Samples.specifier "b" 9 10; Samples.specifier "a" 12 13])
               ranges
    /\ inSequence (fst (fix_range edit)) ranges.
Proof.
  apply (fixImportMembers_text Samples.unsortedContext
           [Samples.specifier "b" 9 10; Samples.specifier "a" 12 13]).
  - vm_compute.
    constructor; [intros [Heq|[]]; discriminate|].
    constructor; [intros []|constructor].
  - discriminate.
  - reflexivity.
  - intros s Hs. destruct Hs as [<-|[<-|[]]]; vm_compute; lia.
Defined.
